(** * Locale message resolution of the wallet front-end (lib/i18n core)

    A shallow embedding of the localisation core: the process-wide pair of
    message bundles, [init] (the loader), [getMessage] (the resolver),
    [fetchLocaleMessages], [appendPlaceholderLists] and the formatting
    metadata getters.

    Conventions of the embedding:
    - a JavaScript object used as a dictionary is a [gmap string _] of its
      own properties, at the type the code declares for it (a bundle is a
      [LocaleMessages]); reading a property by a computed key goes through
      the prototype chain, so the members every object inherits from
      [Object.prototype] are found as well ([get_property]);
    - an object whose enumeration order is observable (the [placeholders]
      of one message, walked by [for ... in]) is an association list in
      enumeration order;
    - an array with holes is the finite map of its integer-keyed
      properties;
    - a number is a double, kept as the rational it denotes; a string
      whose characters the code inspects is the list of its UTF-16 code
      units;
    - code that may throw lives in the [Result] monad; [try]/[catch] is
      [try_catch]; a rejected promise is a [Throw];
    - the two [console] calls are not modelled (they do not touch the
      resolver state). *)

From Stdlib Require Import Ascii String QArith Qcanon DecimalString DecimalNat.
From stdpp Require Import base option list strings gmap fin_maps.

Local Open Scope string_scope.
Set Warnings "-register-all".

(** ** Exceptions and the error monad *)

Inductive Exn : Type :=
  | TypeError (msg : string)
  | SyntaxError (msg : string)
  | NetworkError (msg : string).

Inductive Result (A : Type) : Type :=
  | Ok (a : A)
  | Throw (e : Exn).
Arguments Ok {A} & a.
Arguments Throw {A} e.

Global Instance Result_ret : MRet Result := @Ok.
Global Instance Result_bind : MBind Result := λ A B f m,
  match m with
  | Ok a => f a
  | Throw e => Throw e
  end.

(** [try { body } catch (err) { handler err }] *)
Definition try_catch {A} (body : Result A) (handler : Exn → Result A) : Result A :=
  match body with
  | Ok a => Ok a
  | Throw e => handler e
  end.

(** ** JavaScript values that reach the resolver *)

(** A JavaScript number: a double.  A finite double is kept as the
    rational it denotes ([to_double] below rounds a rational to the
    nearest one); the sign of zero is not kept, neither the subtraction
    [x - 1] nor the property key of a number shows it. *)
Inductive Num : Type :=
  | NaN
  | Infinity (negative : bool)
  | Finite (q : Q).

(** The values a caller may pass as [substitutions] (declared [any]), and
    the values [getMessage] returns. *)
Inductive JsValue : Type :=
  | VUndefined
  | VNull
  | VBool (b : bool)
  | VNum (n : Num)
  | VStr (s : string)
  | VArr (items : list JsValue).

Coercion VStr : string >-> JsValue.

(** ** Strings and numbers *)

(** [String(i)] for a non-negative integer [i]. *)
Definition show_nat (i : nat) : string :=
  NilEmpty.string_of_uint (Nat.to_uint i).

Definition string_is_empty (s : string) : bool :=
  match s with
  | EmptyString => true
  | String _ _ => false
  end.

(** [s.replace(from, to)] with one-character strings: only the first
    occurrence is replaced. *)
Fixpoint replace_first (from to : ascii) (s : string) : string :=
  match s with
  | EmptyString => EmptyString
  | String c rest =>
      if Ascii.eqb c from then String to rest
      else String c (replace_first from to rest)
  end.

(** A string whose characters the code inspects, the [content] of a
    placeholder descriptor: the sequence of its UTF-16 code units. *)
Abbreviation JsString := (list N).

(** The code units of a text of ASCII characters. *)
Definition code_units (s : string) : JsString :=
  N_of_ascii <$> list_ascii_of_string s.

(** [s.substring(1)]: [s] without its first code unit. *)
Definition substring1 (s : JsString) : JsString := drop 1 s.

(** The code unit [c] is the ASCII character [a]. *)
Definition is_char (a : ascii) (c : N) : bool := (c =? N_of_ascii a)%N.

(** *** Rounding to a double *)

(** [n / d] rounded to the nearest integer, a tie to the even one; [d] is
    positive. *)
Definition round_half_even (n d : Z) : Z :=
  let f := (n / d)%Z in
  match (2 * (n mod d) ?= d)%Z with
  | Lt => f
  | Gt => (f + 1)%Z
  | Eq => if Z.even f then f else (f + 1)%Z
  end.

(** The binary exponent of [n / d]: the [k] with [2^k ≤ n / d < 2^(k+1)]. *)
Definition binade (n d : positive) : Z :=
  let k := (Z.log2 (Zpos n) - Z.log2 (Zpos d))%Z in
  let below :=
    if (0 <=? k)%Z then (Zpos n <? Zpos d * 2 ^ k)%Z
    else (Zpos n * 2 ^ (- k) <? Zpos d)%Z in
  if below then (k - 1)%Z else k.

(** [m * 2^e] *)
Definition scale2 (m e : Z) : Q :=
  if (0 <=? e)%Z then inject_Z (m * 2 ^ e)
  else Qmake m (Z.to_pos (2 ^ (- e))).

(** The double nearest to [n / d], ties to even: 53 significant bits, the
    least exponent -1074 of the subnormal range, and infinity from 2^1024
    on. *)
Definition nearest_double (n d : positive) : Num :=
  let e := Z.max (binade n d - 52) (-1074) in
  let m :=
    if (0 <=? e)%Z then round_half_even (Zpos n) (Zpos d * 2 ^ e)
    else round_half_even (Zpos n * 2 ^ (- e)) (Zpos d) in
  if (0 <=? e)%Z && (2 ^ 1024 <=? m * 2 ^ e)%Z then Infinity false
  else Finite (scale2 m e).

Definition num_neg (n : Num) : Num :=
  match n with
  | NaN => NaN
  | Infinity b => Infinity (negb b)
  | Finite q => Finite (- q)%Q
  end.

(** The Number value for a mathematical value: the nearest double. *)
Definition to_double (q : Q) : Num :=
  let r := Qred q in
  match Qnum r with
  | Z0 => Finite 0
  | Zpos n => nearest_double n (Qden r)
  | Zneg n => num_neg (nearest_double n (Qden r))
  end.

(** *** [ToNumber] on strings (the unary [+] of [appendPlaceholderLists]) *)

(** White space and line terminators: TAB, LF, VT, FF, CR, SP, NBSP, the
    Unicode space separators (U+1680, U+2000 to U+200A, U+202F, U+205F,
    U+3000), LS, PS and the byte order mark. *)
Definition is_ws (c : N) : bool :=
  bool_decide (c ∈ [9; 10; 11; 12; 13; 32; 160; 5760; 8232; 8233; 8239; 8287;
                    12288; 65279]%N)
  || ((8192 <=? c) && (c <=? 8202))%N.

Fixpoint trim_start (s : JsString) : JsString :=
  match s with
  | [] => []
  | c :: rest => if is_ws c then trim_start rest else s
  end.

Fixpoint trim_end (s : JsString) : JsString :=
  match s with
  | [] => []
  | c :: rest =>
      match trim_end rest with
      | [] => if is_ws c then [] else [c]
      | rest' => c :: rest'
      end
  end.

Definition trim (s : JsString) : JsString := trim_end (trim_start s).

(** The value of a digit character, for radixes up to sixteen. *)
Definition digit_val (c : N) : option N :=
  if ((48 <=? c) && (c <=? 57))%N then Some (c - 48)%N
  else if ((97 <=? c) && (c <=? 102))%N then Some (c - 87)%N
  else if ((65 <=? c) && (c <=? 70))%N then Some (c - 55)%N
  else None.

Definition is_decimal_digit (c : N) : bool := ((48 <=? c) && (c <=? 57))%N.

Fixpoint digits_acc (radix acc : N) (s : JsString) : option N :=
  match s with
  | [] => Some acc
  | c :: rest =>
      match digit_val c with
      | Some d =>
          if (d <? radix)%N then digits_acc radix (acc * radix + d)%N rest
          else None
      | None => None
      end
  end.

(** [DecimalDigits] as a predicate: every character is a decimal digit. *)
Definition all_digits (s : JsString) : bool := forallb is_decimal_digit s.

(** A non-empty run of digits of the radix, and nothing else. *)
Definition digits (radix : N) (s : JsString) : option N :=
  match s with
  | [] => None
  | _ => digits_acc radix 0%N s
  end.

(** The longest prefix of decimal digits, and the rest. *)
Fixpoint span_digits (s : JsString) : JsString * JsString :=
  match s with
  | [] => ([], [])
  | c :: rest =>
      if is_decimal_digit c then
        let '(ds, tl) := span_digits rest in (c :: ds, tl)
      else ([], s)
  end.

(** [ExponentPart], optional: what follows the mantissa up to the end. *)
Definition exponent_part (s : JsString) : option Z :=
  match s with
  | [] => Some 0%Z
  | c :: rest =>
      if is_char "e" c || is_char "E" c then
        let '(neg, ds) :=
          match rest with
          | sign :: t =>
              if is_char "-" sign then (true, t)
              else if is_char "+" sign then (false, t)
              else (false, rest)
          | [] => (false, rest)
          end in
        match digits 10 ds with
        | Some e => Some (if neg : bool then (- Z.of_N e)%Z else Z.of_N e)
        | None => None
        end
      else None
  end.

(** [StrUnsignedDecimalLiteral] *)
Definition unsigned_decimal (s : JsString) : Num :=
  if bool_decide (s = code_units "Infinity") then Infinity false else
  let '(ip, r1) := span_digits s in
  let '(fp, r2) :=
    match r1 with
    | c :: t => if is_char "." c then span_digits t else ([], r1)
    | [] => ([], r1)
    end in
  match ip, fp with
  | [], [] => NaN
  | _, _ =>
      match exponent_part r2 with
      | Some e =>
          let m := default 0%N (digits_acc 10 0 (ip ++ fp)) in
          to_double (inject_Z (Z.of_N m) * 10 ^ (e - Z.of_nat (length fp)))%Q
      | None => NaN
      end
  end.

Definition radix_of_prefix (c : N) : option N :=
  if is_char "x" c || is_char "X" c then Some 16%N
  else if is_char "o" c || is_char "O" c then Some 8%N
  else if is_char "b" c || is_char "B" c then Some 2%N
  else None.

(** [NonDecimalIntegerLiteral]: [0x], [0o] and [0b] prefixes, unsigned;
    [None] when the string does not start with one of them. *)
Definition non_decimal_integer (s : JsString) : option Num :=
  match s with
  | zero :: c :: t =>
      if is_char "0" zero then
        match radix_of_prefix c with
        | Some radix =>
            Some match digits radix t with
                 | Some v => to_double (inject_Z (Z.of_N v))
                 | None => NaN
                 end
        | None => None
        end
      else None
  | _ => None
  end.

(** [StrNumericLiteral] *)
Definition str_numeric_literal (s : JsString) : Num :=
  match non_decimal_integer s with
  | Some n => n
  | None =>
      match s with
      | sign :: t =>
          if is_char "-" sign then num_neg (unsigned_decimal t)
          else if is_char "+" sign then unsigned_decimal t
          else unsigned_decimal s
      | [] => unsigned_decimal s
      end
  end.

(** [+s] for a string [s]. *)
Definition to_number (s : JsString) : Num :=
  match trim s with
  | [] => Finite 0
  | t => str_numeric_literal t
  end.

(** [n - 1] *)
Definition num_pred (n : Num) : Num :=
  match n with
  | NaN => NaN
  | Infinity b => Infinity b
  | Finite q => to_double (q - 1)%Q
  end.

(** The integer a number denotes as a property key, when it is a
    non-negative integer: [arr[n]] and [arr[i]] name the same property
    exactly when the two integers are the same.  Any other number names a
    property no integer reaches. *)
Definition integer_key (n : Num) : option N :=
  match n with
  | Finite q =>
      let r := Qred q in
      if (Zpos (Qden r) =? 1)%Z && (0 <=? Qnum r)%Z
      then Some (Z.to_N (Qnum r))
      else None
  | _ => None
  end.

(** The index [+content.substring(1) - 1] of [appendPlaceholderLists], as
    an integer key if it is one. *)
Definition decode_index (content : JsString) : option N :=
  integer_key (num_pred (to_number (substring1 content))).

(** ** Arrays with holes *)

(** The integer-keyed properties of an array: a hole is a key without a
    binding.  (From 2^32 - 1 on an integer key names an ordinary property
    rather than an element; [arr[i]] reads it all the same.) *)
Abbreviation SparseArray := (gmap N string).

(** [arr[i]]; a hole and an index past the end both read [undefined]. *)
Definition array_get (arr : SparseArray) (i : nat) : option string :=
  arr !! N.of_nat i.

(** [arr[n] = v] for a number [n]: when [n] is not a non-negative integer
    the assignment creates a property that no read [arr[i]] sees. *)
Definition array_store (arr : SparseArray) (n : Num) (v : string)
    : SparseArray :=
  match integer_key n with
  | Some k => <[k := v]> arr
  | None => arr
  end.

(** ** Data model (lib/i18n/types) *)

(** A placeholder descriptor of the wire format.  [content] is [None] when
    the JSON carries no string there: [content.substring] then throws. *)
Record Placeholder : Type := {
  content : option JsString
}.

(** One message.  [placeholders] lists the declared placeholders in
    [for ... in] order; [placeholderList] is the derived array. *)
Record LocaleMessage : Type := {
  message : string;
  placeholders : option (list (string * Placeholder));
  placeholderList : option SparseArray
}.

Abbreviation LocaleMessages := (gmap string LocaleMessage).

Record FetchedLocaleMessages : Type := {
  target : option LocaleMessages;
  fallback : option LocaleMessages
}.

(** The locale objects imported from date-fns. *)
Inductive DateFnsLocale : Type :=
  enUS | enGB | fr | zhCN | zhTW | ja | ko | uk | ru | es | ptBR.

Definition dateFnsLocales : gmap string DateFnsLocale :=
  list_to_map
    [("en", enUS); ("en_GB", enGB); ("fr", fr); ("zh_CN", zhCN);
     ("zh_TW", zhTW); ("ja", ja); ("ko", ko); ("uk", uk); ("ru", ru);
     ("es", es); ("pt_BR", ptBR)].

(** Modelled from the spec: the table cldrjs-locales.json is missing from
    the sources.  An entry is a CLDR-style numbering metadata object; its
    [numbers] member holds the symbol table of the latn numbering system
    (decimal separator, grouping separator, ...) under the key
    ['symbols-numberSystem-latn']. *)
Record CldrNumbers : Type := {
  symbols_numberSystem_latn : gmap string string
}.

Record CldrLocale : Type := {
  numbers : CldrNumbers
}.

(** Modelled from the spec: the static locale to metadata table.  The
    baseline entry [en] is always there (the code reads
    [cldrjsLocales.en] unguarded). *)
Record CldrjsLocales : Type := {
  en : CldrLocale;
  other_locales : gmap string CldrLocale
}.

(** [cldrjsLocales[locale]] *)
Definition cldr_lookup (table : CldrjsLocales) (locale : string)
    : option CldrLocale :=
  if decide (locale = "en") then Some (en table)
  else other_locales table !! locale.

(** The module-level variables [fetchedLocaleMessages] and [cldrLocale]. *)
Record ResolverState : Type := {
  fetchedLocaleMessages : FetchedLocaleMessages;
  cldrLocale : CldrLocale
}.

(** The collaborators [init] talks to.  [fetch_json url] is
    [fetch(url)] followed by [res.json()]: any failure of either is a
    [Throw], and the parsed document is taken at the type the code gives
    it ([const messages: LocaleMessages]). *)
Record Env : Type := {
  (** Modelled from the spec: [getSavedLocale() → string|null] of
      ./saving, which is missing from the sources. *)
  getSavedLocale : option string;
  getUILanguage : string;
  manifest_default_locale : option string;
  getURL : string → string;
  fetch_json : string → Result LocaleMessages
}.

(** [a || b] on strings where [a] may be null or undefined. *)
Definition or_string (a : option string) (b : string) : string :=
  match a with
  | Some s => if string_is_empty s then b else s
  | None => b
  end.

(** [a ?? b] *)
Definition nullish {A} (a b : option A) : option A :=
  match a with
  | Some x => Some x
  | None => b
  end.

(** ** The loader *)

Definition getNativeLocale (env : Env) : string := getUILanguage env.

Definition getDefaultLocale (env : Env) : string :=
  or_string (manifest_default_locale env) "en".

Definition getCurrentLocale (env : Env) : string :=
  or_string (getSavedLocale env) (getNativeLocale env).

Definition get_content (ph : Placeholder) : Result JsString :=
  match content ph with
  | Some c => Ok c
  | None => Throw (TypeError "Cannot read properties of undefined")
  end.

(** The inner loop of [appendPlaceholderLists], over the placeholders of
    one message. *)
Fixpoint appendPlaceholderLists_inner (phs : list (string * Placeholder))
    (plist : SparseArray) : Result SparseArray :=
  match phs with
  | [] => Ok plist
  | (pKey, ph) :: rest =>
      c ← get_content ph;
      let index := num_pred (to_number (substring1 c)) in
      appendPlaceholderLists_inner rest (array_store plist index pKey)
  end.

(** The body of the outer loop, for one message [val]. *)
Definition appendPlaceholderLists_message (val : LocaleMessage) : Result LocaleMessage :=
  match placeholders val with
  | Some phs =>
      plist ← appendPlaceholderLists_inner phs ∅;
      Ok {| message := message val;
            placeholders := placeholders val;
            placeholderList := Some plist |}
  | None => Ok val
  end.

(** [appendPlaceholderLists] updates the messages in place; a throw leaves
    the loop at once. *)
Definition appendPlaceholderLists (messages : LocaleMessages)
    : Result LocaleMessages :=
  map_fold
    (λ name val acc,
       ms ← acc;
       val' ← appendPlaceholderLists_message val;
       Ok (<[name := val']> ms))
    (Ok messages) messages.

(** The [try] block of [fetchLocaleMessages], given the outcome of the
    fetch, and its [catch]. *)
Definition fetchLocaleMessages_settle (fetched : Result LocaleMessages)
    : Result (option LocaleMessages) :=
  try_catch
    (messages ← fetched;
     messages' ← appendPlaceholderLists messages;
     Ok (Some messages'))
    (λ err, Ok None).

Definition locale_url (env : Env) (locale : string) : string :=
  let dirName := replace_first "-" "_" locale in
  getURL env ("_locales/" ++ dirName ++ "/messages.json").

Definition fetchLocaleMessages (env : Env) (locale : string)
    : Result (option LocaleMessages) :=
  fetchLocaleMessages_settle (fetch_json env (locale_url env locale)).

(** [init] up to the end of [Promise.all]: the local pair [refetched].
    The two fetches write one slot each, so the order in which they settle
    does not show in [refetched]; [Promise.all] rejects when either of
    them does. *)
Definition init_fetch (env : Env) : Result FetchedLocaleMessages :=
  let saved := getSavedLocale env in
  let native := getNativeLocale env in
  let def := getDefaultLocale env in
  t ← fetchLocaleMessages env (or_string saved native);
  f ← fetchLocaleMessages env def;
  Ok {| target := t; fallback := f |}.

(** The two assignments that end [init]. *)
Definition init_commit (cldrjsLocales : CldrjsLocales) (env : Env)
    (refetched : FetchedLocaleMessages) : ResolverState :=
  {| fetchedLocaleMessages := refetched;
     cldrLocale :=
       default (en cldrjsLocales)
               (cldr_lookup cldrjsLocales (getCurrentLocale env)) |}.

(** [init]: the promise it returns resolves with the new module state, or
    rejects.  The environment is the same at both ends of the call; the
    event-loop machine below lets it change in between. *)
Definition init (cldrjsLocales : CldrjsLocales) (env : Env)
    : Result ResolverState :=
  refetched ← init_fetch env;
  Ok (init_commit cldrjsLocales env refetched).

(** The module state before any [init]. *)
Definition initial_state (cldrjsLocales : CldrjsLocales) : ResolverState :=
  {| fetchedLocaleMessages := {| target := None; fallback := None |};
     cldrLocale := en cldrjsLocales |}.

(** ** The getters *)

Definition getDateFnsLocale (env : Env) : DateFnsLocale :=
  default enUS (dateFnsLocales !! getCurrentLocale env).

Definition getCldrLocale (st : ResolverState) : CldrLocale := cldrLocale st.

Definition getNumberSymbols (st : ResolverState) : gmap string string :=
  symbols_numberSystem_latn (numbers (cldrLocale st)).

(** ** The resolver *)

(** Modelled from the spec: [toList] of ./helpers is missing from the
    sources.  It normalises [substitutions] into an ordered argument list:
    a single non-list value becomes a one-element list. *)
Definition toList (substitutions : JsValue) : list JsValue :=
  match substitutions with
  | VArr items => items
  | single => [single]
  end.

(** [arr.reduce((acc, x, i) => f acc x i, init)] *)
Fixpoint reduce_from {A B} (f : B → A → nat → B) (l : list A) (i : nat)
    (acc : B) : B :=
  match l with
  | [] => acc
  | x :: rest => reduce_from f rest (S i) (f acc x i)
  end.

Definition reduce {A B} (f : B → A → nat → B) (init : B) (l : list A) : B :=
  reduce_from f l 0 init.

(** The binding key [pKey] of the reducer: a placeholder name, or the
    numeric index itself. *)
Inductive PKey : Type :=
  | PName (name : string)
  | PIndex (i : nat).

(** [val.placeholderList?.[i] ?? i] *)
Definition pKey_at (plist : option SparseArray) (i : nat) : PKey :=
  match plist ≫= (λ arr, array_get arr i) with
  | Some name => PName name
  | None => PIndex i
  end.

(** The truthiness the reducer tests with [pKey ? ... : ...]. *)
Definition truthy (k : PKey) : bool :=
  match k with
  | PName name => negb (string_is_empty name)
  | PIndex i => negb (Nat.eqb i 0)
  end.

(** The property name a computed key [[pKey]] denotes. *)
Definition property_key (k : PKey) : string :=
  match k with
  | PName name => name
  | PIndex i => show_nat i
  end.

(** The reducer of [getMessage]. *)
Definition bind_param (plist : option SparseArray)
    (prms : gmap string JsValue) (sub : JsValue) (i : nat)
    : gmap string JsValue :=
  let pKey := pKey_at plist i in
  if truthy pKey then <[property_key pKey := sub]> prms else prms.

(** The constant [params] of [getMessage]. *)
Definition getMessage_params (val : LocaleMessage) (substitutions : JsValue)
    : gmap string JsValue :=
  reduce (bind_param (placeholderList val)) ∅ (toList substitutions).

(** The names of the members every object inherits from
    [Object.prototype]: the built-in methods, and the accessor
    [__proto__]. *)
Definition object_prototype_members : list string :=
  ["constructor"; "__defineGetter__"; "__defineSetter__"; "hasOwnProperty";
   "__lookupGetter__"; "__lookupSetter__"; "isPrototypeOf";
   "propertyIsEnumerable"; "toString"; "valueOf"; "__proto__";
   "toLocaleString"].

(** What [bundle[messageName]] finds: a message of the bundle, or a member
    inherited from [Object.prototype] (a built-in function, or the
    prototype itself for [__proto__]). *)
Inductive Found : Type :=
  | FoundMessage (val : LocaleMessage)
  | FoundInherited (member : string).

Coercion FoundMessage : LocaleMessage >-> Found.

(** [slot?.[messageName]]: the own property when the bundle has one, and
    otherwise the member inherited under that name, if any. *)
Definition get_property (slot : option LocaleMessages) (messageName : string)
    : option Found :=
  bundle ← slot;
  match bundle !! messageName with
  | Some val => Some (FoundMessage val)
  | None =>
      if bool_decide (messageName ∈ object_prototype_members)
      then Some (FoundInherited messageName)
      else None
  end.

(** The first statement of [getMessage]. *)
Definition lookup_message (fetched : FetchedLocaleMessages)
    (messageName : string) : option Found :=
  nullish (get_property (target fetched) messageName)
          (get_property (fallback fetched) messageName).

Section Resolver.

(** [processTemplate] of ./helpers is missing from the sources: it is a
    parameter of the development.  It receives the template and the
    [params] object and returns the display string, or throws. *)
Variable processTemplate : string → gmap string JsValue → Result string.

(** The [try] block of [getMessage].  What was found is truthy; an
    inherited member has neither [placeholders] nor [message], so that
    [val.message] is [undefined]. *)
Definition getMessage_try (val : Found) (substitutions : JsValue)
    : Result JsValue :=
  match val with
  | FoundMessage entry =>
      match placeholders entry with
      | Some _ =>
          str ← processTemplate (message entry)
                                (getMessage_params entry substitutions);
          Ok (VStr str)
      | None => Ok (VStr (message entry))
      end
  | FoundInherited _ => Ok VUndefined
  end.

(** [getMessage(messageName, substitutions)]; an omitted [substitutions]
    is [VUndefined]. *)
Definition getMessage (st : ResolverState) (messageName : string)
    (substitutions : JsValue) : Result JsValue :=
  match lookup_message (fetchedLocaleMessages st) messageName with
  | None => Ok EmptyString
  | Some val =>
      try_catch (getMessage_try val substitutions) (λ err, Ok EmptyString)
  end.

End Resolver.

(** ** Overlapping loads on the event loop

    [init] suspends at its [await]: other jobs run in between, among them
    reads of the module state and further calls of [init].  The machine
    below runs any number of [init] calls job by job.  The pair each call
    builds is an object on the heap, and the module variable
    [fetchedLocaleMessages] is a reference to such an object. *)

Abbreviation loc := nat (only parsing).

(** One call of [init] in flight: its local object [refetched] and the two
    promises of [fetchLocaleMessages], pending ([None]) or fulfilled. *)
Record InitCall : Type := {
  refetched : loc;
  target_promise : option (option LocaleMessages);
  fallback_promise : option (option LocaleMessages)
}.

Record Config : Type := {
  heap : gmap loc FetchedLocaleMessages;
  fetchedLocaleMessages_ref : loc;
  cldrLocale_var : CldrLocale;
  in_flight : list InitCall
}.

(** What a synchronous read of [fetchedLocaleMessages] sees. *)
Definition observe (c : Config) : option FetchedLocaleMessages :=
  heap c !! fetchedLocaleMessages_ref c.

Definition set_target (v : option LocaleMessages) (o : FetchedLocaleMessages)
    : FetchedLocaleMessages :=
  {| target := v; fallback := fallback o |}.

Definition set_fallback (v : option LocaleMessages) (o : FetchedLocaleMessages)
    : FetchedLocaleMessages :=
  {| target := target o; fallback := v |}.

Definition initial_config (cldrjsLocales : CldrjsLocales) : Config :=
  {| heap := {[ 0 := fetchedLocaleMessages (initial_state cldrjsLocales) ]};
     fetchedLocaleMessages_ref := 0;
     cldrLocale_var := cldrLocale (initial_state cldrjsLocales);
     in_flight := [] |}.

(** [init()] is called: [refetched] is allocated at [l] and both fetches
    start. *)
Definition call_init (c : Config) (l : loc) : Config :=
  {| heap := <[l := {| target := None; fallback := None |}]> (heap c);
     fetchedLocaleMessages_ref := fetchedLocaleMessages_ref c;
     cldrLocale_var := cldrLocale_var c;
     in_flight := {| refetched := l; target_promise := None;
                 fallback_promise := None |} :: in_flight c |}.

(** [refetched.target = await fetchLocaleMessages(saved || native)] of the
    load [ld], resumed with the outcome [v]. *)
Definition settle_target (c : Config) (before : list InitCall) (ld : InitCall)
    (after : list InitCall) (v : option LocaleMessages) : Config :=
  {| heap := alter (set_target v) (refetched ld) (heap c);
     fetchedLocaleMessages_ref := fetchedLocaleMessages_ref c;
     cldrLocale_var := cldrLocale_var c;
     in_flight := (before ++
               {| refetched := refetched ld; target_promise := Some v;
                  fallback_promise := fallback_promise ld |} :: after)%list |}.

(** [refetched.fallback = await fetchLocaleMessages(def)] of the load
    [ld], resumed with the outcome [v]. *)
Definition settle_fallback (c : Config) (before : list InitCall) (ld : InitCall)
    (after : list InitCall) (v : option LocaleMessages) : Config :=
  {| heap := alter (set_fallback v) (refetched ld) (heap c);
     fetchedLocaleMessages_ref := fetchedLocaleMessages_ref c;
     cldrLocale_var := cldrLocale_var c;
     in_flight := (before ++
               {| refetched := refetched ld;
                  target_promise := target_promise ld;
                  fallback_promise := Some v |} :: after)%list |}.

(** The two assignments that end [init], for the load [ld]; [env] is the
    environment at that moment. *)
Definition commit (cldrjsLocales : CldrjsLocales) (c : Config)
    (before : list InitCall) (ld : InitCall) (after : list InitCall) (env : Env) : Config :=
  {| heap := heap c;
     fetchedLocaleMessages_ref := refetched ld;
     cldrLocale_var :=
       default (en cldrjsLocales)
               (cldr_lookup cldrjsLocales (getCurrentLocale env));
     in_flight := (before ++ after)%list |}.

(** One job of the event loop. *)
Inductive step (cldrjsLocales : CldrjsLocales) : Config → Config → Prop :=
  | step_call c l :
      heap c !! l = None →
      step cldrjsLocales c (call_init c l)
  | step_target c before ld after fetched v :
      in_flight c = (before ++ ld :: after)%list →
      target_promise ld = None →
      fetchLocaleMessages_settle fetched = Ok v →
      step cldrjsLocales c (settle_target c before ld after v)
  | step_fallback c before ld after fetched v :
      in_flight c = (before ++ ld :: after)%list →
      fallback_promise ld = None →
      fetchLocaleMessages_settle fetched = Ok v →
      step cldrjsLocales c (settle_fallback c before ld after v)
  (** [Promise.all] has resolved: both promises of the load are fulfilled *)
  | step_commit c before ld after env vt vf :
      in_flight c = (before ++ ld :: after)%list →
      target_promise ld = Some vt →
      fallback_promise ld = Some vf →
      step cldrjsLocales c (commit cldrjsLocales c before ld after env).

Inductive reachable (cldrjsLocales : CldrjsLocales) : Config → Prop :=
  | reachable_initial : reachable cldrjsLocales (initial_config cldrjsLocales)
  | reachable_step c c' :
      reachable cldrjsLocales c →
      step cldrjsLocales c c' →
      reachable cldrjsLocales c'.

(** ** Notions used to state the properties *)

(** A bundle slot that is unset, or set and without the key as a property
    of its own. *)
Definition lacks (slot : option LocaleMessages) (messageName : string) : Prop :=
  slot = None ∨ ∃ bundle, slot = Some bundle ∧ bundle !! messageName = None.

(** [Array.isArray] *)
Definition is_array (v : JsValue) : bool :=
  match v with
  | VArr _ => true
  | _ => false
  end.

(** Some message of the bundle declares a placeholder whose descriptor
    has no content string. *)
Definition has_malformed_placeholder (messages : LocaleMessages) : Prop :=
  ∃ name val phs pKey ph,
    messages !! name = Some val ∧ placeholders val = Some phs ∧
    (pKey, ph) ∈ phs ∧ content ph = None.

(** The fetch of a locale fails: [fetch] or [res.json()] throws. *)
Definition fetch_fails (env : Env) (locale : string) : Prop :=
  ∃ e, fetch_json env (locale_url env locale) = Throw e.

(** The object a load in flight is filling: the slots of the fetches that
    have settled hold their outcome, the others are still null; and the
    module variable does not refer to it. *)
Definition load_consistent (c : Config) (ld : InitCall) : Prop :=
  refetched ld ≠ fetchedLocaleMessages_ref c ∧
  heap c !! refetched ld
  = Some {| target := default None (target_promise ld);
            fallback := default None (fallback_promise ld) |}.

Definition config_inv (c : Config) : Prop :=
  is_Some (heap c !! fetchedLocaleMessages_ref c) ∧
  Forall (load_consistent c) (in_flight c) ∧
  NoDup (refetched <$> in_flight c).

(** ** Sample inputs of the concrete checks *)

Definition sample_placeholder (entry : string * string)
    : string * Placeholder :=
  (fst entry, {| content := Some (code_units (snd entry)) |}).

(** A message of the wire format that declares the given placeholders,
    each with its content string. *)
Definition sample_message (template : string) (phs : list (string * string))
    : LocaleMessage :=
  {| message := template;
     placeholders := Some (map sample_placeholder phs);
     placeholderList := None |}.

(** A host whose UI language is French and whose default locale is
    English; [en_json] and [other_json] are what the two fetches yield. *)
Definition sample_env (en_json other_json : Result LocaleMessages) : Env :=
  {| getSavedLocale := None;
     getUILanguage := "fr-CA";
     manifest_default_locale := Some "en";
     getURL := λ path, "chrome-extension://wallet/" ++ path;
     fetch_json := λ url,
       if String.eqb url "chrome-extension://wallet/_locales/en/messages.json"
       then en_json else other_json |}.

Definition sample_cldr : CldrjsLocales :=
  {| en := {| numbers := {| symbols_numberSystem_latn :=
                              {[ "decimal" := "."; "group" := "," ]} |} |};
     other_locales :=
       {[ "fr" := {| numbers := {| symbols_numberSystem_latn :=
                              {[ "decimal" := ","; "group" := " " ]} |} |} ]} |}.

(** A loaded state: a French target bundle with one message and an
    English fallback bundle with three, one of them parameterised. *)
Definition sample_state : ResolverState :=
  {| fetchedLocaleMessages :=
       {| target :=
            Some {[ "hello" := {| message := "Bonjour"; placeholders := None;
                                  placeholderList := None |} ]};
          fallback :=
            Some {[ "hello" := {| message := "Hello"; placeholders := None;
                                  placeholderList := None |};
                    "bye" := {| message := "Bye"; placeholders := None;
                                placeholderList := None |};
                    "greet" :=
                      {| message := "Hi $name$";
                         placeholders :=
                           Some [("name",
                                  {| content := Some (code_units "$1") |})];
                         placeholderList := Some {[ 0%N := "name" ]} |} ]} |};
     cldrLocale := en sample_cldr |}.


(** One load run to the point where both fetches have settled: the
    target fetch yields an empty bundle, the fallback fetch fails. *)
Definition sample_load_started : Config :=
  call_init (initial_config sample_cldr) 1.

Definition sample_load_target_settled : Config :=
  settle_target sample_load_started []
    {| refetched := 1; target_promise := None; fallback_promise := None |} []
    (Some ∅).

Definition sample_load_settled : Config :=
  settle_fallback sample_load_target_settled []
    {| refetched := 1; target_promise := Some (Some ∅);
       fallback_promise := None |} []
    None.

Definition sample_load_committed : Config :=
  commit sample_cldr sample_load_settled []
    {| refetched := 1; target_promise := Some (Some ∅);
       fallback_promise := Some None |} []
    (sample_env (Throw (NetworkError "offline")) (Ok ∅)).

(** A [processTemplate] that echoes the template, and one that throws. *)
Definition echo_template (str : string) (mapObj : gmap string JsValue)
    : Result string := Ok str.

Definition failing_template (str : string) (mapObj : gmap string JsValue)
    : Result string := Throw (TypeError "processTemplate").

(** ** More notions for the localisation core *)

(** The character occurs in the string. *)
Fixpoint has_char (c : ascii) (s : string) : bool :=
  match s with
  | EmptyString => false
  | String c' rest => Ascii.eqb c' c || has_char c rest
  end.

(** Every placeholder descriptor of the bundle carries a content string. *)
Definition well_formed (messages : LocaleMessages) : Prop :=
  ∀ name val phs pKey ph,
    messages !! name = Some val → placeholders val = Some phs →
    (pKey, ph) ∈ phs → is_Some (content ph).

(** Two overlapping calls of [init]: the first one called finds no target
    bundle, the second one finds both bundles; all four fetches have
    settled and neither call has made its final assignments yet. *)
Definition sample_two_called : Config :=
  call_init (call_init (initial_config sample_cldr) 1) 2.

Definition sample_first_settled : Config :=
  settle_fallback
    (settle_target sample_two_called
       [ {| refetched := 2; target_promise := None; fallback_promise := None |} ]
       {| refetched := 1; target_promise := None; fallback_promise := None |} []
       None)
    [ {| refetched := 2; target_promise := None; fallback_promise := None |} ]
    {| refetched := 1; target_promise := Some None; fallback_promise := None |} []
    (Some ∅).

Definition sample_two_settled : Config :=
  settle_fallback
    (settle_target sample_first_settled []
       {| refetched := 2; target_promise := None; fallback_promise := None |}
       [ {| refetched := 1; target_promise := Some None;
            fallback_promise := Some (Some ∅) |} ]
       (Some ∅))
    []
    {| refetched := 2; target_promise := Some (Some ∅);
       fallback_promise := None |}
    [ {| refetched := 1; target_promise := Some None;
         fallback_promise := Some (Some ∅) |} ]
    (Some ∅).

(** * The DApps list (app/templates/DAppsList.tsx) *)

Module DAppsList.

Definition USED_TAGS : list string :=
  ["DEX"; "NFT"; "DAO"; "Game"; "Social"; "Marketplace"; "Farming"; "Other"].

(** [arr.includes(x)] on an array of strings *)
Definition includes (arr : list string) (x : string) : bool :=
  bool_decide (x ∈ arr).

(** [arr.indexOf(x)]: the first position of [x], or -1. *)
Fixpoint indexOf_from (arr : list string) (x : string) (i : Z) : Z :=
  match arr with
  | [] => (-1)%Z
  | y :: rest => if String.eqb y x then i else indexOf_from rest x (i + 1)%Z
  end.

Definition indexOf (arr : list string) (x : string) : Z := indexOf_from arr x 0.

(** [arr.splice(start, deleteCount)], as the array it leaves: a negative
    [start] counts from the end, and both arguments are clamped to the
    array. *)
Definition splice {A} (arr : list A) (start : Z) (deleteCount : nat) : list A :=
  let len := Z.of_nat (length arr) in
  let actualStart :=
    Z.to_nat (if (start <? 0)%Z then Z.max (len + start) 0 else Z.min start len) in
  let actualDeleteCount := Nat.min deleteCount (length arr - actualStart) in
  take actualStart arr ++ drop (actualStart + actualDeleteCount) arr.

(** [s.includes(sub)] on strings *)
Fixpoint string_includes (s sub : string) : bool :=
  String.prefix sub s ||
  match s with
  | EmptyString => false
  | String _ rest => string_includes rest sub
  end.

(** A raw category that reaches the list under its own name: a tag of
    [USED_TAGS] other than "Other". *)
Definition known (category : string) : Prop :=
  category ∈ USED_TAGS ∧ category ≠ "Other".

Global Instance known_dec category : Decision (known category).
Proof. unfold known. apply _. Defined.

(** The categories of one DApp, as the [useMemo] of [dApps] rewrites
    them. *)
Definition normalize_categories (rawCategories : list string) : list string :=
  let nonUniqueCategories :=
    map (λ category, if includes USED_TAGS category then category else "Other")
        rawCategories in
  let categories :=
    filter (λ name, name ≠ "Other") nonUniqueCategories in
  if decide (length categories ≠ length nonUniqueCategories)
  then categories ++ ["Other"]
  else categories.

(** The updater [handleTagClick] passes to [setSelectedTags]. *)
Definition handleTagClick (name : string) (prevSelectedTags : list string)
    : list string :=
  let tagIndex := indexOf prevSelectedTags name in
  if (tagIndex =? -1)%Z then prevSelectedTags ++ [name]
  else splice prevSelectedTags tagIndex 1.

(** [handleFavoriteChange], as the list it stores. *)
Definition handleFavoriteChange (favoriteDApps : list string)
    (newIsFavorite : bool) (slug : string) : list string :=
  if newIsFavorite then favoriteDApps ++ [slug]
  else splice favoriteDApps (indexOf favoriteDApps slug) 1.

Section WithDApps.

(** The other members of a DApp record ([logo], [website], ...), which the
    list logic only passes along. *)
Context {Rest : Type}.

Record DApp : Type := {
  name : string;
  slug : string;
  categories : list string;
  restProps : Rest
}.

(** [String.prototype.toLowerCase] is not modelled: it is a parameter. *)
Variable toLowerCase : string → string.

(** The [useMemo] of [dApps]. *)
Definition dApps (data : list DApp) : list DApp :=
  map (λ d, {| name := name d; slug := slug d;
               categories := normalize_categories (categories d);
               restProps := restProps d |}) data.

(** The [useMemo] of [matchingDApps]. *)
Definition matchingDApps (dApps : list DApp) (searchString : string)
    (selectedTags : list string) : list DApp :=
  filter
    (λ d, string_includes (toLowerCase (name d)) (toLowerCase searchString)
          && forallb (λ selectedTag, includes (categories d) selectedTag)
                     selectedTags = true)
    dApps.

Definition allDAppsSlugs (dApps : list DApp) : list string := map slug dApps.

Definition allDAppsAreFavorite (dApps : list DApp) (favoriteDApps : list string)
    : bool :=
  forallb (λ slug, includes favoriteDApps slug) (allDAppsSlugs dApps).

(** [toggleAllFavorite], as the list it stores. *)
Definition toggleAllFavorite (dApps : list DApp) (favoriteDApps : list string)
    : list string :=
  if allDAppsAreFavorite dApps favoriteDApps then [] else allDAppsSlugs dApps.

End WithDApps.

Arguments DApp : clear implicits.

End DAppsList.

(** * The tabs of the Explore page (app/pages/Explore.tsx) *)

Module Explore.

Section Tabs.

(** A tab, with its component left abstract. *)
Context {Component : Type}.

Record Tab : Type := {
  slug : string;
  title : string;
  component : Component;
  testID : string
}.

(** [tabs.find(currentTab => currentTab.slug === tabSlug)] *)
Fixpoint find_tab (tabs : list Tab) (tabSlug : string) : option Tab :=
  match tabs with
  | [] => None
  | currentTab :: rest =>
      if String.eqb (slug currentTab) tabSlug then Some currentTab
      else find_tab rest tabSlug
  end.

(** The [useMemo] that picks the tab to show: [tabSlug] is the [tab]
    search parameter, null when there is none. *)
Definition selected_tab (tabs : list Tab) (tabSlug : option string)
    : option Tab :=
  let tab :=
    match tabSlug with
    | Some s => if string_is_empty s then None else find_tab tabs s
    | None => None
    end in
  nullish tab (tabs !! 0).

End Tabs.

Arguments Tab : clear implicits.

End Explore.

(** * Properties *)

(** ** Decimal strings and [ToNumber] *)

Lemma digit_not_ws c : is_decimal_digit c = true → is_ws c = false.
Proof.
  unfold is_decimal_digit, is_ws. intros H.
  apply andb_true_iff in H as [H1 H2].
  apply N.leb_le in H1. apply N.leb_le in H2.
  apply orb_false_iff. split.
  - apply bool_decide_eq_false_2. intros Hin.
    repeat (apply elem_of_cons in Hin as [-> | Hin]; [lia |]).
    by apply elem_of_nil in Hin.
  - apply andb_false_iff. left. apply N.leb_gt. lia.
Qed.

Lemma digit_not_char c (a : ascii) :
  is_decimal_digit c = true →
  (N_of_ascii a < 48 ∨ 57 < N_of_ascii a)%N →
  is_char a c = false.
Proof.
  unfold is_decimal_digit, is_char. intros H Ha.
  apply andb_true_iff in H as [H1 H2].
  apply N.leb_le in H1. apply N.leb_le in H2.
  apply N.eqb_neq. lia.
Qed.

Lemma digit_val_decimal c :
  is_decimal_digit c = true →
  digit_val c = Some (c - 48)%N ∧ (c - 48 < 10)%N.
Proof.
  unfold is_decimal_digit, digit_val. intros H. rewrite H.
  apply andb_true_iff in H as [H1 H2].
  apply N.leb_le in H1. apply N.leb_le in H2. split; [done | lia].
Qed.

Lemma string_of_uint_all_digits d :
  all_digits (code_units (NilEmpty.string_of_uint d)) = true.
Proof. induction d; simpl; auto. Qed.

Lemma trim_start_digits s : all_digits s = true → trim_start s = s.
Proof.
  destruct s as [|c s]; simpl; [done |].
  intros [Hc _]%andb_true_iff. by rewrite (digit_not_ws c Hc).
Qed.

Lemma trim_end_digits s : all_digits s = true → trim_end s = s.
Proof.
  induction s as [|c s IH]; simpl; [done |].
  intros [Hc Hs]%andb_true_iff.
  rewrite (IH Hs), (digit_not_ws c Hc). by destruct s.
Qed.

Lemma trim_digits s : all_digits s = true → trim s = s.
Proof.
  intros H. unfold trim. rewrite (trim_start_digits s H). by apply trim_end_digits.
Qed.

Lemma span_digits_all s : all_digits s = true → span_digits s = (s, []).
Proof.
  induction s as [|c s IH]; simpl; [done |].
  intros [Hc Hs]%andb_true_iff. by rewrite Hc, (IH Hs).
Qed.

Lemma digits_not_Infinity s :
  all_digits s = true → bool_decide (s = code_units "Infinity") = false.
Proof.
  intros H. apply bool_decide_eq_false_2. intros ->. discriminate H.
Qed.

Lemma digit_no_radix_prefix c : is_decimal_digit c = true → radix_of_prefix c = None.
Proof.
  intros H. unfold radix_of_prefix.
  rewrite !(digit_not_char c _ H) by (vm_compute; right; reflexivity). done.
Qed.

Lemma non_decimal_integer_digits s :
  all_digits s = true → non_decimal_integer s = None.
Proof.
  destruct s as [|zero [|c t]]; [done | done |].
  intros [_ [Hc _]%andb_true_iff]%andb_true_iff. simpl.
  rewrite (digit_no_radix_prefix c Hc). by destruct (is_char "0" zero).
Qed.

Lemma str_numeric_literal_digits s :
  all_digits s = true → str_numeric_literal s = unsigned_decimal s.
Proof.
  intros H. unfold str_numeric_literal.
  rewrite (non_decimal_integer_digits s H).
  destruct s as [|c s]; [done |].
  apply andb_true_iff in H as [Hc _].
  rewrite !(digit_not_char c _ Hc) by (vm_compute; left; reflexivity). done.
Qed.

Lemma digits_acc_of_uint d acc :
  digits_acc 10 (N.of_nat acc) (code_units (NilEmpty.string_of_uint d))
  = Some (N.of_nat (Nat.of_uint_acc d acc)).
Proof.
  revert acc.
  induction d as [|d IH|d IH|d IH|d IH|d IH|d IH|d IH|d IH|d IH|d IH];
    intros acc; simpl; [done | ..];
    rewrite <- IH; f_equal; rewrite Nat.tail_mul_spec; lia.
Qed.

Lemma digits_acc_show_nat n :
  digits_acc 10 0 (code_units (show_nat n)) = Some (N.of_nat n).
Proof.
  unfold show_nat. change 0%N with (N.of_nat 0).
  rewrite digits_acc_of_uint. f_equal. f_equal.
  apply (DecimalNat.Unsigned.of_to n).
Qed.

Lemma show_nat_all_digits n : all_digits (code_units (show_nat n)) = true.
Proof. apply string_of_uint_all_digits. Qed.

Lemma show_nat_nonempty n : code_units (show_nat n) ≠ [].
Proof.
  intros E. pose proof (digits_acc_show_nat n) as H. rewrite E in H. simpl in H.
  assert (n = 0) as -> by (injection H; lia).
  discriminate E.
Qed.

Lemma unsigned_decimal_digits s m :
  all_digits s = true → s ≠ [] →
  digits_acc 10 0 s = Some m →
  unsigned_decimal s = to_double (inject_Z (Z.of_N m) * 10 ^ 0)%Q.
Proof.
  intros Hd Hne Hm. unfold unsigned_decimal.
  rewrite (digits_not_Infinity s Hd), (span_digits_all s Hd).
  rewrite app_nil_r, Hm. by destruct s.
Qed.

(** Rounding to a double: equal rationals round alike, and an integer up
    to 2^53 is a double. *)

Lemma to_double_proper q q' : (q == q')%Q → to_double q = to_double q'.
Proof. intros H. unfold to_double. by rewrite (Qred_complete _ _ H). Qed.

Lemma Qred_inject_Z z : Qred (inject_Z z) = inject_Z z.
Proof. apply Qred_identity. simpl. apply Z.gcd_1_r. Qed.

Lemma binade_integer p : binade p 1 = Z.log2 (Zpos p).
Proof.
  unfold binade. change (Z.log2 1) with 0%Z. rewrite Z.sub_0_r.
  pose proof (Z.log2_nonneg (Zpos p)) as Hnn.
  destruct (Z.leb_spec 0 (Z.log2 (Zpos p))); [| lia].
  pose proof (Z.log2_spec (Zpos p) ltac:(lia)) as [Hlo _].
  destruct (Z.ltb_spec (Zpos p) (1 * 2 ^ Z.log2 (Zpos p))); [lia | done].
Qed.

Lemma round_half_even_exact n d : (0 < d)%Z → round_half_even (n * d) d = n.
Proof.
  intros Hd. unfold round_half_even.
  rewrite Z.mod_mul, Z.div_mul by lia.
  change (2 * 0)%Z with 0%Z. by destruct (Z.compare_spec 0 d); [lia | | lia].
Qed.

Lemma scale2_exact m e : (e < 0)%Z → (scale2 (m * 2 ^ (- e)) e == inject_Z m)%Q.
Proof.
  intros He. unfold scale2. destruct (Z.leb_spec 0 e); [lia |].
  unfold Qeq. simpl. rewrite Z2Pos.id by (apply Z.pow_pos_nonneg; lia). lia.
Qed.

Lemma nearest_double_integer p :
  (Zpos p ≤ 2 ^ 53)%Z →
  ∃ q, nearest_double p 1 = Finite q ∧ (q == inject_Z (Zpos p))%Q.
Proof.
  intros Hp. unfold nearest_double. rewrite binade_integer.
  pose proof (Z.log2_nonneg (Zpos p)) as Hnn.
  assert (Z.log2 (Zpos p) ≤ 53)%Z as Hk.
  { change 53%Z with (Z.log2 (2 ^ 53)). by apply Z.log2_le_mono. }
  rewrite Z.max_l by lia.
  set (k := Z.log2 (Zpos p)) in *.
  destruct (Z.leb_spec 0 (k - 52)) as [Hge | Hlt].
  - assert (∃ m, Zpos p = m * (1 * 2 ^ (k - 52)))%Z as [m Hm].
    { destruct (decide (k = 52%Z)) as [Hk52 | Hne].
      - exists (Zpos p). rewrite Hk52. change (2 ^ (52 - 52))%Z with 1%Z. lia.
      - assert (k = 53%Z) as Hk53 by lia.
        pose proof (Z.log2_spec (Zpos p) ltac:(lia)) as [Hlo _].
        fold k in Hlo. rewrite Hk53 in Hlo |- *.
        exists (2 ^ 52)%Z. change (2 ^ (53 - 52))%Z with 2%Z.
        change (2 ^ 52 * (1 * 2))%Z with (2 ^ 53)%Z. lia. }
    rewrite Hm, round_half_even_exact by (apply Z.mul_pos_pos; [lia | apply Z.pow_pos_nonneg; lia]).
    assert (m * 2 ^ (k - 52) = Zpos p)%Z as Hval by lia.
    rewrite Hval.
    destruct (Z.leb_spec (2 ^ 1024) (Zpos p)) as [Hbig | _].
    { assert (2 ^ 53 < 2 ^ 1024)%Z by (apply Z.pow_lt_mono_r; lia). lia. }
    simpl. eexists. split; [reflexivity |].
    unfold scale2. destruct (Z.leb_spec 0 (k - 52)); [| lia]. rewrite Hval. by rewrite <- Hm.
  - simpl. eexists. split; [reflexivity |].
    replace (Zpos p * 2 ^ (- (k - 52)))%Z with ((Zpos p * 2 ^ (- (k - 52))) * 1)%Z by lia.
    rewrite round_half_even_exact by lia.
    by apply scale2_exact.
Qed.

Lemma to_double_integer q z :
  (q == inject_Z z)%Q → (- 2 ^ 53 ≤ z ≤ 2 ^ 53)%Z →
  ∃ q', to_double q = Finite q' ∧ (q' == inject_Z z)%Q.
Proof.
  intros Hq [Hlo Hhi]. rewrite (to_double_proper _ _ Hq).
  unfold to_double. rewrite Qred_inject_Z. simpl.
  destruct z as [|p|p].
  - eexists. split; [reflexivity | done].
  - by apply nearest_double_integer.
  - destruct (nearest_double_integer p) as (q' & -> & Hq'); [lia |].
    simpl. eexists. split; [reflexivity |]. by rewrite Hq'.
Qed.

(** [+String(n)] is [n], for [n] up to 2^53. *)
Lemma to_number_show_nat n :
  (Z.of_nat n ≤ 2 ^ 53)%Z →
  ∃ q, to_number (code_units (show_nat n)) = Finite q ∧ (q == inject_Z (Z.of_nat n))%Q.
Proof.
  intros Hn. unfold to_number.
  rewrite (trim_digits _ (show_nat_all_digits n)).
  destruct (code_units (show_nat n)) as [|c l] eqn:E;
    [by destruct (show_nat_nonempty n) |].
  rewrite <- E.
  rewrite (str_numeric_literal_digits _ (show_nat_all_digits n)).
  rewrite (unsigned_decimal_digits _ _ (show_nat_all_digits n)
             (show_nat_nonempty n) (digits_acc_show_nat n)).
  apply to_double_integer; [| lia].
  rewrite nat_N_Z. simpl (10 ^ 0)%Q. ring.
Qed.

Lemma integer_key_integer q z :
  (q == inject_Z z)%Q → (0 ≤ z)%Z → integer_key (Finite q) = Some (Z.to_N z).
Proof.
  intros Hq Hlo. unfold integer_key.
  rewrite (Qred_complete _ _ Hq), Qred_inject_Z. simpl.
  by destruct (Z.leb_spec 0 z); [| lia].
Qed.

(** The index decoded from the descriptor content ["$n"]. *)
Lemma decode_show_nat (n : nat) :
  (1 ≤ n)%nat → (Z.of_nat n ≤ 2 ^ 53)%Z →
  decode_index (code_units ("$" ++ show_nat n)) = Some (N.of_nat (n - 1)).
Proof.
  intros H1 H2. unfold decode_index.
  change (substring1 (code_units ("$" ++ show_nat n))) with (code_units (show_nat n)).
  destruct (to_number_show_nat n H2) as (q & -> & Hq). simpl num_pred.
  destruct (to_double_integer (q - 1) (Z.of_nat n - 1)) as (q' & -> & Hq').
  - rewrite Hq. unfold Qeq; simpl. lia.
  - lia.
  - rewrite (integer_key_integer _ _ Hq') by lia. f_equal. lia.
Qed.

(** The decoding at work: the wire format, other spellings of a number
    (white space beyond ASCII included), literals that round to an integer,
    and contents that name no integer key. *)
Example decode_index_examples :
  decode_index (code_units "$1") = Some 0%N ∧
  decode_index (code_units "$10") = Some 9%N ∧
  decode_index (code_units "$ 2 ") = Some 1%N ∧
  decode_index [36; 160; 50; 8232]%N = Some 1%N ∧
  decode_index [8364; 50]%N = Some 1%N ∧
  decode_index (code_units "$0x10") = Some 15%N ∧
  decode_index (code_units "$1e1") = Some 9%N ∧
  decode_index (code_units "$2.0") = Some 1%N ∧
  decode_index (code_units "$1.0000000000000000001") = Some 0%N ∧
  decode_index (code_units "$4294967296") = Some 4294967295%N ∧
  decode_index (code_units "$9007199254740993") = Some 9007199254740991%N ∧
  decode_index (code_units "$0") = None ∧
  decode_index (code_units "$") = None ∧
  decode_index (code_units "$name") = None ∧
  decode_index (code_units "$1.5") = None ∧
  decode_index (code_units "$-3") = None ∧
  decode_index (code_units "$Infinity") = None ∧
  decode_index (code_units "$1e400") = None.
Proof. repeat split; vm_compute; reflexivity. Qed.

(** ** Arrays with holes *)

Lemma array_get_store (arr : SparseArray) n j v :
  array_get (array_store arr n v) j
  = if decide (integer_key n = Some (N.of_nat j)) then Some v
    else array_get arr j.
Proof.
  unfold array_store, array_get. destruct (integer_key n) as [k |].
  - destruct (decide (k = N.of_nat j)) as [-> | Hne].
    + by rewrite decide_True, lookup_insert_eq.
    + rewrite decide_False by congruence. by rewrite lookup_insert_ne.
  - by rewrite decide_False.
Qed.

(** ** The loader's post-processing *)

Lemma inner_cons pKey ph rest plist c :
  content ph = Some c →
  appendPlaceholderLists_inner ((pKey, ph) :: rest) plist
  = appendPlaceholderLists_inner rest
      (array_store plist (num_pred (to_number (substring1 c))) pKey).
Proof. intros H. simpl. unfold get_content. by rewrite H. Qed.

Lemma inner_app l1 l2 plist :
  appendPlaceholderLists_inner (l1 ++ l2) plist
  = appendPlaceholderLists_inner l1 plist ≫= appendPlaceholderLists_inner l2.
Proof.
  revert plist. induction l1 as [|[pKey ph] l1 IH]; intros plist; [done |].
  simpl. destruct (get_content ph) as [c | e]; simpl; [apply IH | done].
Qed.


(** Positions no descriptor decodes to keep what they held. *)
Lemma inner_untouched phs plist plist' j :
  appendPlaceholderLists_inner phs plist = Ok plist' →
  (∀ pKey ph c, (pKey, ph) ∈ phs → content ph = Some c →
                decode_index c ≠ Some (N.of_nat j)) →
  array_get plist' j = array_get plist j.
Proof.
  revert plist. induction phs as [|[pKey ph] phs IH]; intros plist Hrun Hno.
  - simpl in Hrun. by injection Hrun as <-.
  - destruct (content ph) as [c |] eqn:Hc.
    + rewrite (inner_cons _ _ _ _ _ Hc) in Hrun.
      rewrite (IH _ Hrun).
      * rewrite array_get_store. rewrite decide_False; [done |].
        apply (Hno pKey ph c); [apply elem_of_cons; by left | done].
      * intros pKey' ph' c' Hin. apply (Hno pKey'). apply elem_of_cons. by right.
    + simpl in Hrun. unfold get_content in Hrun. rewrite Hc in Hrun. done.
Qed.

(** The last descriptor that decodes to a position owns it. *)
Lemma inner_last_wins before pKey ph after c j plist plist' :
  appendPlaceholderLists_inner (before ++ (pKey, ph) :: after) plist = Ok plist' →
  content ph = Some c → decode_index c = Some (N.of_nat j) →
  (∀ pKey' ph' c', (pKey', ph') ∈ after → content ph' = Some c' →
                   decode_index c' ≠ Some (N.of_nat j)) →
  array_get plist' j = Some pKey.
Proof.
  intros Hrun Hc Hj Hafter. rewrite inner_app in Hrun.
  destruct (appendPlaceholderLists_inner before plist) as [mid | e];
    simpl in Hrun; [| done].
  change (appendPlaceholderLists_inner ((pKey, ph) :: after) mid = Ok plist')
    in Hrun.
  rewrite (inner_cons _ _ _ _ _ Hc) in Hrun.
  rewrite (inner_untouched _ _ _ j Hrun Hafter).
  rewrite array_get_store. by rewrite decide_True.
Qed.

(** The outer loop, started from any object [base]: every message it
    walks is post-processed, or one of them made it throw. *)
Lemma appendPlaceholderLists_loop (base m : LocaleMessages) :
  match
    map_fold
      (λ name val acc,
         ms ← acc;
         val' ← appendPlaceholderLists_message val;
         Ok (<[name := val']> ms))
      (Ok base) m
  with
  | Ok r =>
      ∀ name,
        match m !! name with
        | Some val =>
            ∃ val', appendPlaceholderLists_message val = Ok val' ∧
                    r !! name = Some val'
        | None => r !! name = base !! name
        end
  | Throw _ =>
      ∃ name val e, m !! name = Some val ∧
                    appendPlaceholderLists_message val = Throw e
  end.
Proof.
  apply (map_fold_weak_ind
    (λ (res : Result LocaleMessages) (m : LocaleMessages),
       match res with
       | Ok r =>
           ∀ name,
             match m !! name with
             | Some val =>
                 ∃ val', appendPlaceholderLists_message val = Ok val' ∧
                         r !! name = Some val'
             | None => r !! name = base !! name
             end
       | Throw _ =>
           ∃ name val e, m !! name = Some val ∧
                         appendPlaceholderLists_message val = Throw e
       end)).
  - intros name. by rewrite lookup_empty.
  - intros i x m' res Hfresh IH.
    destruct res as [r | e]; simpl.
    + destruct (appendPlaceholderLists_message x) as [x' | e'] eqn:Hx; simpl.
      * intros name. destruct (decide (i = name)) as [<- | Hne].
        -- rewrite !lookup_insert_eq. eauto.
        -- rewrite !lookup_insert_ne by done. apply IH.
      * exists i, x, e'. by rewrite lookup_insert_eq.
    + destruct IH as (name & val & e' & Hl & Ht).
      exists name, val, e'. split; [| done].
      rewrite lookup_insert_ne; [done |]. intros ->. congruence.
Qed.

Lemma appendPlaceholderLists_spec (messages : LocaleMessages) :
  match appendPlaceholderLists messages with
  | Ok messages' =>
      ∀ name,
        match messages !! name with
        | Some val =>
            ∃ val', appendPlaceholderLists_message val = Ok val' ∧
                    messages' !! name = Some val'
        | None => messages' !! name = None
        end
  | Throw _ =>
      ∃ name val e, messages !! name = Some val ∧
                    appendPlaceholderLists_message val = Throw e
  end.
Proof.
  unfold appendPlaceholderLists.
  pose proof (appendPlaceholderLists_loop messages messages) as H.
  destruct (map_fold _ _ _) as [r | e]; [| done].
  intros name. specialize (H name).
  destruct (messages !! name) eqn:E; done.
Qed.

Lemma fetchLocaleMessages_settle_total fetched :
  ∃ v, fetchLocaleMessages_settle fetched = Ok v.
Proof.
  unfold fetchLocaleMessages_settle.
  destruct fetched as [messages | e]; simpl; [| eauto].
  destruct (appendPlaceholderLists messages); simpl; eauto.
Qed.

Lemma fetchLocaleMessages_settle_Some fetched messages' :
  fetchLocaleMessages_settle fetched = Ok (Some messages') →
  ∃ messages, fetched = Ok messages ∧
              appendPlaceholderLists messages = Ok messages'.
Proof.
  unfold fetchLocaleMessages_settle.
  destruct fetched as [messages | e]; simpl; [| done].
  destruct (appendPlaceholderLists messages) as [r | e] eqn:E; simpl; [| done].
  intros [= <-]. eauto.
Qed.


Lemma init_total cldrjsLocales env :
  ∃ t f,
    fetchLocaleMessages env (or_string (getSavedLocale env) (getNativeLocale env))
      = Ok t ∧
    fetchLocaleMessages env (getDefaultLocale env) = Ok f ∧
    init cldrjsLocales env
      = Ok (init_commit cldrjsLocales env {| target := t; fallback := f |}).
Proof.
  unfold init, init_fetch, fetchLocaleMessages.
  destruct (fetchLocaleMessages_settle_total
              (fetch_json env (locale_url env
                 (or_string (getSavedLocale env) (getNativeLocale env)))))
    as [t Ht].
  destruct (fetchLocaleMessages_settle_total
              (fetch_json env (locale_url env (getDefaultLocale env))))
    as [f Hf].
  exists t, f. rewrite Ht, Hf. done.
Qed.

(** Decoding goes through double arithmetic: the content
    "$1.0000000000000000001" reads as 1, so this placeholder takes index 0
    from the one before it. *)
Example rounded_content_takes_the_index :
  ∃ val',
    appendPlaceholderLists_message
      (sample_message "$a$ $b$"
         [("a", "$1"); ("b", "$1.0000000000000000001")]) = Ok val' ∧
    placeholderList val' = Some {[ 0%N := "b" ]}.
Proof. eexists. split; vm_compute; reflexivity. Qed.

(** The bundle of the greeting example: one message, one placeholder bound
    to the first argument. *)
Example greet_bundle_loaded :
  ∃ messages' val',
    fetchLocaleMessages
      (sample_env (Ok {[ "greet" := sample_message "Hi $name$" [("name", "$1")] ]})
                  (Ok ∅))
      "en" = Ok (Some messages') ∧
    messages' !! "greet" = Some val' ∧
    placeholderList val' = Some {[ 0%N := "name" ]} ∧
    getMessage_params val' (VArr [VStr "Ann"]) !! "name" = Some (VStr "Ann") ∧
    getMessage_params val' (VStr "Ann") !! "name" = Some (VStr "Ann").
Proof.
  eexists _, _. split; [vm_compute; reflexivity |].
  split; [vm_compute; reflexivity |].
  repeat split; vm_compute; reflexivity.
Qed.

(** ** The reducer of [getMessage] *)

Section Reducer.

Variable plist : option SparseArray.

Lemma reduce_from_sound (l : list JsValue) i acc k v :
  reduce_from (bind_param plist) l i acc !! k = Some v →
  acc !! k = Some v ∨
  ∃ j, l !! j = Some v ∧ truthy (pKey_at plist (i + j)) = true ∧
       property_key (pKey_at plist (i + j)) = k.
Proof.
  revert i acc. induction l as [|x l IH]; intros i acc H; [by left |].
  simpl in H. apply IH in H as [H | (j & Hj & Ht & Hk)].
  - unfold bind_param in H.
    destruct (truthy (pKey_at plist i)) eqn:Ht; [| by left].
    destruct (decide (property_key (pKey_at plist i) = k)) as [Hk | Hk].
    + rewrite <- Hk, lookup_insert_eq in H. injection H as ->.
      right. exists 0. rewrite Nat.add_0_r. done.
    + rewrite lookup_insert_ne in H by done. by left.
  - right. exists (S j). rewrite Nat.add_succ_r. done.
Qed.

Lemma reduce_from_skip (l : list JsValue) i acc k :
  (∀ j sub, l !! j = Some sub → truthy (pKey_at plist (i + j)) = true →
            property_key (pKey_at plist (i + j)) ≠ k) →
  reduce_from (bind_param plist) l i acc !! k = acc !! k.
Proof.
  revert i acc. induction l as [|x l IH]; intros i acc H; [done |].
  simpl. rewrite IH.
  - unfold bind_param.
    destruct (truthy (pKey_at plist i)) eqn:Ht; [| done].
    rewrite lookup_insert_ne; [done |].
    specialize (H 0 x). rewrite Nat.add_0_r in H. by apply H.
  - intros j sub Hj. specialize (H (S j) sub).
    rewrite Nat.add_succ_r in H. by apply H.
Qed.

Lemma reduce_from_bound (l : list JsValue) i acc j sub :
  l !! j = Some sub →
  truthy (pKey_at plist (i + j)) = true →
  (∀ j' sub', j < j' → l !! j' = Some sub' →
              truthy (pKey_at plist (i + j')) = true →
              property_key (pKey_at plist (i + j'))
              ≠ property_key (pKey_at plist (i + j))) →
  reduce_from (bind_param plist) l i acc !! property_key (pKey_at plist (i + j))
  = Some sub.
Proof.
  revert i acc j. induction l as [|x l IH]; intros i acc j Hj Ht Hlater; [done |].
  destruct j as [|j]; simpl in Hj |- *.
  - injection Hj as ->. rewrite Nat.add_0_r in *.
    rewrite reduce_from_skip.
    + unfold bind_param. rewrite Ht. by rewrite lookup_insert_eq.
    + intros j' sub' Hj'. specialize (Hlater (S j') sub').
      rewrite Nat.add_succ_r in Hlater. apply Hlater; [lia | done].
  - rewrite Nat.add_succ_r in *. apply (IH (S i) _ j Hj Ht).
    intros j' sub' Hlt Hj'. specialize (Hlater (S j') sub').
    rewrite Nat.add_succ_r in Hlater. apply Hlater; [lia | done].
Qed.

End Reducer.

(** ** The resolver *)

Lemma getMessage_found processTemplate st messageName substitutions val :
  lookup_message (fetchedLocaleMessages st) messageName = Some val →
  getMessage processTemplate st messageName substitutions
  = try_catch (getMessage_try processTemplate val substitutions) (λ _, Ok EmptyString).
Proof. intros H. unfold getMessage. by rewrite H. Qed.

Lemma try_catch_total {A} (body : Result A) (a : A) :
  ∃ r, try_catch body (λ _, Ok a) = Ok r.
Proof. destruct body; simpl; eauto. Qed.


Lemma get_property_own bundle messageName val :
  bundle !! messageName = Some val →
  get_property (Some bundle) messageName = Some (FoundMessage val).
Proof. intros H. simpl. by rewrite H. Qed.

Lemma get_property_lacks slot messageName :
  lacks slot messageName →
  get_property slot messageName
  = if bool_decide (messageName ∈ object_prototype_members)
    then slot ≫= (λ _, Some (FoundInherited messageName))
    else None.
Proof.
  intros [-> | (bundle & -> & Hk)]; simpl.
  - by destruct (bool_decide _).
  - by rewrite Hk.
Qed.

(** The lookup order on the keys the bundles hold, and on the keys that
    name nothing at all: the target bundle first, then the fallback
    bundle, then the empty string. *)
Lemma getMessage_lookup_order processTemplate st messageName substitutions :
  (∀ bundle (val : LocaleMessage),
     target (fetchedLocaleMessages st) = Some bundle →
     bundle !! messageName = Some val →
     getMessage processTemplate st messageName substitutions
     = try_catch (getMessage_try processTemplate val substitutions)
                 (λ _, Ok EmptyString)) ∧
  (∀ bundle (val : LocaleMessage),
     messageName ∉ object_prototype_members →
     lacks (target (fetchedLocaleMessages st)) messageName →
     fallback (fetchedLocaleMessages st) = Some bundle →
     bundle !! messageName = Some val →
     getMessage processTemplate st messageName substitutions
     = try_catch (getMessage_try processTemplate val substitutions)
                 (λ _, Ok EmptyString)) ∧
  (messageName ∉ object_prototype_members →
   lacks (target (fetchedLocaleMessages st)) messageName →
   lacks (fallback (fetchedLocaleMessages st)) messageName →
   getMessage processTemplate st messageName substitutions = Ok EmptyString).
Proof.
  split; [| split].
  - intros bundle val Ht Hk. apply getMessage_found.
    unfold lookup_message. rewrite Ht. by rewrite (get_property_own _ _ _ Hk).
  - intros bundle val Hnot Hlack Hf Hk. apply getMessage_found.
    unfold lookup_message.
    rewrite (get_property_lacks _ _ Hlack), bool_decide_eq_false_2 by done.
    rewrite Hf. by rewrite (get_property_own _ _ _ Hk).
  - intros Hnot Ht Hf. unfold getMessage, lookup_message.
    rewrite (get_property_lacks _ _ Ht), (get_property_lacks _ _ Hf).
    by rewrite bool_decide_eq_false_2.
Qed.

(** C1: the lookup [bundle[messageName]] goes through the prototype
    chain.  For a key that names a member of [Object.prototype] and that
    neither bundle holds, with at least one bundle loaded, [getMessage]
    finds the inherited member, which has neither [placeholders] nor
    [message], and returns [undefined] where the empty string is
    expected. *)
Theorem getMessage_inherited_member
    processTemplate st messageName substitutions :
  messageName ∈ object_prototype_members →
  lacks (target (fetchedLocaleMessages st)) messageName →
  lacks (fallback (fetchedLocaleMessages st)) messageName →
  is_Some (target (fetchedLocaleMessages st))
  ∨ is_Some (fallback (fetchedLocaleMessages st)) →
  getMessage processTemplate st messageName substitutions = Ok VUndefined.
Proof.
  intros Hin Ht Hf Hloaded. unfold getMessage, lookup_message.
  rewrite (get_property_lacks _ _ Ht), (get_property_lacks _ _ Hf).
  rewrite bool_decide_eq_true_2 by done.
  destruct (target (fetchedLocaleMessages st)) as [bt |]; [done |].
  destruct (fallback (fetchedLocaleMessages st)) as [bf |]; [done |].
  by destruct Hloaded as [[? ?] | [? ?]].
Qed.

Lemma getMessage_inherited_member_witness :
  getMessage echo_template sample_state "constructor" VUndefined = Ok VUndefined ∧
  getMessage echo_template sample_state "constructor" VUndefined ≠ Ok EmptyString.
Proof.
  assert (getMessage echo_template sample_state "constructor" VUndefined
          = Ok VUndefined) as H.
  { apply (getMessage_inherited_member echo_template sample_state "constructor"
             VUndefined).
    - unfold object_prototype_members. apply list_elem_of_here.
    - right. eexists. split; reflexivity.
    - right. eexists. split; reflexivity.
    - left. eexists. reflexivity. }
  split; [exact H |]. rewrite H. discriminate.
Defined.

(** C3: whatever [processTemplate] does, [getMessage] returns a value and
    throws nothing; when the template processing of the message found throws, the
    exception is caught and the result is the empty string. *)
Theorem getMessage_catches processTemplate st messageName substitutions :
  (∃ s, getMessage processTemplate st messageName substitutions = Ok s) ∧
  (∀ val e,
     lookup_message (fetchedLocaleMessages st) messageName = Some val →
     getMessage_try processTemplate val substitutions = Throw e →
     getMessage processTemplate st messageName substitutions = Ok EmptyString).
Proof.
  split.
  - unfold getMessage.
    destruct (lookup_message _ _); [apply try_catch_total | eauto].
  - intros val e Hval Hthrow.
    rewrite (getMessage_found _ _ _ _ _ Hval), Hthrow. done.
Qed.

Lemma getMessage_catches_witness :
  getMessage_try failing_template
    {| message := "Hi $name$";
       placeholders := Some [("name", {| content := Some (code_units "$1") |})];
       placeholderList := Some {[ 0%N := "name" ]} |}
    (VStr "Ann")
  = Throw (TypeError "processTemplate") ∧
  getMessage failing_template sample_state "greet" (VStr "Ann") = Ok EmptyString.
Proof.
  split; [reflexivity |].
  destruct (getMessage_catches failing_template sample_state "greet" (VStr "Ann"))
    as (_ & Hcatch).
  eapply Hcatch; reflexivity.
Defined.

(** C7: a single substitution that is not a list resolves exactly as the
    one-element list holding it. *)
Theorem getMessage_single_is_singleton processTemplate st messageName v :
  is_array v = false →
  getMessage processTemplate st messageName v
  = getMessage processTemplate st messageName (VArr [v]).
Proof.
  intros Hv. unfold getMessage, getMessage_try, getMessage_params.
  replace (toList (VArr [v])) with (toList v); [done |].
  destruct v; (done || discriminate Hv).
Qed.

Lemma getMessage_single_is_singleton_witness :
  is_array (VStr "Ann") = false ∧
  getMessage echo_template sample_state "greet" (VStr "Ann")
  = getMessage echo_template sample_state "greet" (VArr [VStr "Ann"]).
Proof.
  split; [reflexivity |].
  apply (getMessage_single_is_singleton echo_template sample_state "greet"
           (VStr "Ann")).
  reflexivity.
Defined.

(** C10: before any load both bundle slots are null, so [getMessage]
    returns the empty string for every key, and the cached formatting
    metadata is the baseline entry, which [getCldrLocale] and
    [getNumberSymbols] return. *)
Theorem preload_state_is_degraded
    processTemplate cldrjsLocales messageName substitutions :
  fetchedLocaleMessages (initial_state cldrjsLocales)
  = {| target := None; fallback := None |} ∧
  getMessage processTemplate (initial_state cldrjsLocales) messageName
             substitutions = Ok EmptyString ∧
  getCldrLocale (initial_state cldrjsLocales) = en cldrjsLocales ∧
  getNumberSymbols (initial_state cldrjsLocales)
  = symbols_numberSystem_latn (numbers (en cldrjsLocales)).
Proof. repeat split. Qed.

Lemma pKey_at_name plist arr i name :
  plist = Some arr → array_get arr i = Some name →
  pKey_at plist i = PName name.
Proof. intros -> H. unfold pKey_at. simpl. by rewrite H. Qed.

Lemma pKey_at_index plist i :
  plist ≫= (λ arr, array_get arr i) = None → pKey_at plist i = PIndex i.
Proof. intros H. unfold pKey_at. by rewrite H. Qed.

Lemma truthy_name name : name ≠ EmptyString → truthy (PName name) = true.
Proof. by destruct name. Qed.

Lemma truthy_index i : i ≠ 0 → truthy (PIndex i) = true.
Proof. by destruct i. Qed.

(** C2, as the code has it: the argument at position [i] is bound under
    the name [placeholderList] holds at index [i] when there is one, and
    otherwise under the index [i] itself, but only when that key is truthy
    (a non-empty name, an index other than 0), and a later position with
    the same key replaces the binding; a position whose key is falsy adds
    no binding, so every binding of [params] comes from a position whose
    key is truthy. *)
Theorem getMessage_params_binding val substitutions :
  (∀ i sub arr name,
     toList substitutions !! i = Some sub →
     placeholderList val = Some arr → array_get arr i = Some name →
     name ≠ EmptyString →
     (∀ j sub', i < j → toList substitutions !! j = Some sub' →
                truthy (pKey_at (placeholderList val) j) = true →
                property_key (pKey_at (placeholderList val) j) ≠ name) →
     getMessage_params val substitutions !! name = Some sub) ∧
  (∀ i sub,
     toList substitutions !! i = Some sub →
     placeholderList val ≫= (λ arr, array_get arr i) = None →
     i ≠ 0 →
     (∀ j sub', i < j → toList substitutions !! j = Some sub' →
                truthy (pKey_at (placeholderList val) j) = true →
                property_key (pKey_at (placeholderList val) j) ≠ show_nat i) →
     getMessage_params val substitutions !! show_nat i = Some sub) ∧
  (∀ prms sub i,
     truthy (pKey_at (placeholderList val) i) = false →
     bind_param (placeholderList val) prms sub i = prms) ∧
  (∀ k v,
     getMessage_params val substitutions !! k = Some v →
     ∃ i, toList substitutions !! i = Some v ∧
          truthy (pKey_at (placeholderList val) i) = true ∧
          property_key (pKey_at (placeholderList val) i) = k).
Proof.
  unfold getMessage_params, reduce. repeat split.
  - intros i sub arr name Hi Hpl Hname Hne Hlater.
    pose proof (pKey_at_name _ _ _ _ Hpl Hname) as Hkey.
    pose proof (reduce_from_bound (placeholderList val) (toList substitutions)
                  0 ∅ i sub Hi) as H.
    simpl in H. rewrite Hkey in H. apply H; [by apply truthy_name | done].
  - intros i sub Hi Hpl Hne Hlater.
    pose proof (pKey_at_index _ _ Hpl) as Hkey.
    pose proof (reduce_from_bound (placeholderList val) (toList substitutions)
                  0 ∅ i sub Hi) as H.
    simpl in H. rewrite Hkey in H. apply H; [by apply truthy_index | done].
  - intros prms sub i Hfalsy. unfold bind_param. by rewrite Hfalsy.
  - intros k v H.
    apply reduce_from_sound in H as [H | H]; [| done].
    by rewrite lookup_empty in H.
Qed.

Lemma getMessage_params_binding_witness :
  getMessage_params
    {| message := "Hi $name$";
       placeholders := Some [("name", {| content := Some (code_units "$1") |})];
       placeholderList := Some {[ 0%N := "name" ]} |}
    (VArr [VStr "Ann"]) !! "name"
  = Some (VStr "Ann").
Proof.
  destruct (getMessage_params_binding
              {| message := "Hi $name$";
                 placeholders := Some [("name", {| content := Some (code_units "$1") |})];
                 placeholderList := Some {[ 0%N := "name" ]} |}
              (VArr [VStr "Ann"])) as (Hname & _).
  apply (Hname 0 (VStr "Ann") {[ 0%N := "name" ]} "name");
    [reflexivity | reflexivity | reflexivity | discriminate |].
  intros j sub' Hj Hsub _. destruct j as [| j]; [lia | discriminate Hsub].
Defined.

(** C2 as stated fails: with the placeholder list the loader derives from
    a single placeholder named "2" with content "$2" and three arguments,
    position 0 has no name, its key is the index 0, and no binding is made
    under it; position 1 is bound under "2" and then replaced by position
    2, whose key is the index 2. *)
Lemma getMessage_params_drops_arguments :
  ∃ val,
    appendPlaceholderLists_message (sample_message "$2$" [("2", "$2")]) = Ok val ∧
    placeholderList val = Some {[ 1%N := "2" ]} ∧
    toList (VArr [VStr "a"; VStr "b"; VStr "c"]) !! 0 = Some (VStr "a") ∧
    pKey_at (placeholderList val) 0 = PIndex 0 ∧
    getMessage_params val (VArr [VStr "a"; VStr "b"; VStr "c"])
      !! property_key (PIndex 0) = None ∧
    toList (VArr [VStr "a"; VStr "b"; VStr "c"]) !! 1 = Some (VStr "b") ∧
    pKey_at (placeholderList val) 1 = PName "2" ∧
    getMessage_params val (VArr [VStr "a"; VStr "b"; VStr "c"])
      !! property_key (PName "2") = Some (VStr "c").
Proof.
  eexists. split; [vm_compute; reflexivity |].
  repeat split; vm_compute; reflexivity.
Qed.

(** ** The loader *)

Lemma fetchLocaleMessages_fails env locale :
  fetch_fails env locale → fetchLocaleMessages env locale = Ok None.
Proof.
  intros [e He]. unfold fetchLocaleMessages, fetchLocaleMessages_settle.
  by rewrite He.
Qed.

Lemma getMessage_no_bundle processTemplate st messageName substitutions :
  target (fetchedLocaleMessages st) = None →
  fallback (fetchedLocaleMessages st) = None →
  getMessage processTemplate st messageName substitutions = Ok EmptyString.
Proof.
  intros Ht Hf. unfold getMessage, lookup_message. by rewrite Ht, Hf.
Qed.

(** C4: [init] never rejects; a fetch that fails leaves its slot null; and
    when both fetches fail [getMessage] returns the empty string for every
    key in the state [init] leaves (the state changes only through
    [init]). *)
Theorem init_never_rejects processTemplate cldrjsLocales env :
  ∃ st',
    init cldrjsLocales env = Ok st' ∧
    (fetch_fails env (or_string (getSavedLocale env) (getNativeLocale env)) →
     target (fetchedLocaleMessages st') = None) ∧
    (fetch_fails env (getDefaultLocale env) →
     fallback (fetchedLocaleMessages st') = None) ∧
    (fetch_fails env (or_string (getSavedLocale env) (getNativeLocale env)) →
     fetch_fails env (getDefaultLocale env) →
     ∀ messageName substitutions,
       getMessage processTemplate st' messageName substitutions = Ok EmptyString).
Proof.
  destruct (init_total cldrjsLocales env) as (t & f & Ht & Hf & Hinit).
  eexists. split; [exact Hinit |]. simpl.
  assert (fetch_fails env (or_string (getSavedLocale env) (getNativeLocale env))
          → t = None) as Htarget.
  { intros Hfail. rewrite (fetchLocaleMessages_fails _ _ Hfail) in Ht. congruence. }
  assert (fetch_fails env (getDefaultLocale env) → f = None) as Hfallback.
  { intros Hfail. rewrite (fetchLocaleMessages_fails _ _ Hfail) in Hf. congruence. }
  repeat split; [done | done |].
  intros H1 H2 messageName substitutions.
  apply getMessage_no_bundle; simpl; auto.
Qed.

Lemma init_never_rejects_witness :
  ∃ st',
    init sample_cldr
      (sample_env (Throw (NetworkError "en")) (Throw (SyntaxError "fr")))
    = Ok st' ∧
    getMessage echo_template st' "hello" VUndefined = Ok EmptyString.
Proof.
  destruct (init_never_rejects echo_template sample_cldr
              (sample_env (Throw (NetworkError "en")) (Throw (SyntaxError "fr"))))
    as (st' & Hinit & _ & _ & Hboth).
  exists st'. split; [exact Hinit |].
  apply Hboth; eexists; reflexivity.
Defined.

(** C8: when the active locale has no entry in the metadata table, the
    metadata [init] caches is the baseline entry, and [getNumberSymbols]
    returns the baseline symbol table. *)
Theorem init_defaults_to_baseline cldrjsLocales env :
  cldr_lookup cldrjsLocales (getCurrentLocale env) = None →
  ∃ st',
    init cldrjsLocales env = Ok st' ∧
    getCldrLocale st' = en cldrjsLocales ∧
    getNumberSymbols st' = symbols_numberSystem_latn (numbers (en cldrjsLocales)).
Proof.
  intros Hnone.
  destruct (init_total cldrjsLocales env) as (t & f & _ & _ & Hinit).
  eexists. split; [exact Hinit |].
  unfold getNumberSymbols, getCldrLocale, init_commit. simpl.
  by rewrite Hnone.
Qed.

Lemma init_defaults_to_baseline_witness :
  cldr_lookup sample_cldr
    (getCurrentLocale (sample_env (Ok ∅) (Ok ∅))) = None ∧
  ∃ st',
    init sample_cldr (sample_env (Ok ∅) (Ok ∅)) = Ok st' ∧
    getCldrLocale st' = en sample_cldr ∧
    getNumberSymbols st' = symbols_numberSystem_latn (numbers (en sample_cldr)).
Proof.
  split; [reflexivity |].
  apply (init_defaults_to_baseline sample_cldr (sample_env (Ok ∅) (Ok ∅))).
  reflexivity.
Defined.



(** C5, as the code has it: in a successfully fetched bundle, a placeholder
    whose content is "$n" for a position [n] from 1 to 2^53 is stored at
    index [n - 1] of the [placeholderList] of its message, unless a
    placeholder enumerated after it decodes to the same index. *)
Theorem placeholderList_position
    env locale (messages messages' : LocaleMessages) name val
    before pKey ph after (n : nat) :
  fetch_json env (locale_url env locale) = Ok messages →
  fetchLocaleMessages env locale = Ok (Some messages') →
  messages !! name = Some val →
  placeholders val = Some (before ++ (pKey, ph) :: after)%list →
  content ph = Some (code_units ("$" ++ show_nat n)) →
  (1 ≤ n)%nat → (Z.of_nat n ≤ 2 ^ 53)%Z →
  (∀ pKey' ph' c', (pKey', ph') ∈ after → content ph' = Some c' →
                   decode_index c' ≠ Some (N.of_nat (n - 1))) →
  ∃ val' arr,
    messages' !! name = Some val' ∧
    placeholderList val' = Some arr ∧
    array_get arr (n - 1) = Some pKey.
Proof.
  intros Hfetch Hload Hval Hphs Hc Hn1 Hn2 Hafter.
  unfold fetchLocaleMessages in Hload. rewrite Hfetch in Hload.
  apply fetchLocaleMessages_settle_Some in Hload as (ms & [= <-] & Happend).
  pose proof (appendPlaceholderLists_spec messages) as Hspec.
  rewrite Happend in Hspec. specialize (Hspec name). rewrite Hval in Hspec.
  destruct Hspec as (val' & Hmsg & Hlookup).
  unfold appendPlaceholderLists_message in Hmsg. rewrite Hphs in Hmsg.
  destruct (appendPlaceholderLists_inner _ _) as [arr | e] eqn:Hinner;
    simpl in Hmsg; [| done].
  injection Hmsg as <-. eexists _, arr. split; [exact Hlookup |]. split; [reflexivity |].
  eapply inner_last_wins; [exact Hinner | exact Hc | | exact Hafter].
  by apply decode_show_nat.
Qed.

Lemma placeholderList_position_witness :
  ∃ val' arr,
    appendPlaceholderLists_message
      (sample_message "$b$ and $a$" [("a", "$2"); ("b", "$1")]) = Ok val' ∧
    placeholderList val' = Some arr ∧
    array_get arr (2 - 1) = Some "a".
Proof.
  destruct (placeholderList_position
              (sample_env (Ok {[ "pair" := sample_message "$b$ and $a$"
                                             [("a", "$2"); ("b", "$1")] ]})
                          (Ok ∅))
              "en"
              {[ "pair" := sample_message "$b$ and $a$"
                             [("a", "$2"); ("b", "$1")] ]}
              {[ "pair" := {| message := "$b$ and $a$";
                              placeholders :=
                                Some [("a", {| content := Some (code_units "$2") |});
                                      ("b", {| content := Some (code_units "$1") |})];
                              placeholderList := Some {[ 0%N := "b"; 1%N := "a" ]} |} ]}
              "pair"
              (sample_message "$b$ and $a$" [("a", "$2"); ("b", "$1")])
              [] "a" {| content := Some (code_units "$2") |}
              [("b", {| content := Some (code_units "$1") |})] 2)
    as (val' & arr & Hlookup & Hlist & Hget).
  - reflexivity.
  - vm_compute. reflexivity.
  - vm_compute. reflexivity.
  - reflexivity.
  - reflexivity.
  - lia.
  - lia.
  - intros pKey' ph' c' Hin Hc'.
    apply list_elem_of_singleton in Hin. injection Hin as -> ->.
    injection Hc' as <-. vm_compute. discriminate.
  - exists val', arr. split; [| done].
    vm_compute in Hlookup. injection Hlookup as <-. vm_compute. reflexivity.
Defined.

(** C5 as stated fails, in two ways.  Two placeholders with content "$1"
    in one message: the fetch succeeds, index 0 holds the one enumerated
    last, and the first one, whose content is "$1" as well, is stored
    nowhere.  And a placeholder with content "$9007199254740993", that is
    2^53 + 1: the number read from the content is rounded to the double
    2^53, so the name is stored at index 2^53 - 1 and index 2^53 holds
    nothing. *)
Lemma placeholderList_position_overwritten :
  (∃ messages' val' arr,
     fetchLocaleMessages
       (sample_env (Ok {[ "pair" := sample_message "$a$ or $b$"
                                      [("a", "$1"); ("b", "$1")] ]})
                   (Ok ∅))
       "en" = Ok (Some messages') ∧
     messages' !! "pair" = Some val' ∧
     placeholders val'
     = Some [("a", {| content := Some (code_units ("$" ++ show_nat 1)) |});
             ("b", {| content := Some (code_units ("$" ++ show_nat 1)) |})] ∧
     placeholderList val' = Some arr ∧
     array_get arr (1 - 1) = Some "b" ∧
     array_get arr (1 - 1) ≠ Some "a" ∧
     ∀ i, array_get arr i ≠ Some "a") ∧
  (∃ messages' val' arr,
     fetchLocaleMessages
       (sample_env (Ok {[ "far" := sample_message "$a$"
                                     [("a", "$9007199254740993")] ]})
                   (Ok ∅))
       "en" = Ok (Some messages') ∧
     messages' !! "far" = Some val' ∧
     placeholders val'
     = Some [("a", {| content := Some (code_units "$9007199254740993") |})] ∧
     placeholderList val' = Some arr ∧
     arr !! (9007199254740993 - 1)%N = None ∧
     arr !! (9007199254740993 - 2)%N = Some "a").
Proof.
  split.
  - eexists _, _, {[ 0%N := "b" ]}. split; [vm_compute; reflexivity |].
    split; [vm_compute; reflexivity |].
    split; [vm_compute; reflexivity |].
    split; [vm_compute; reflexivity |].
    split; [reflexivity |]. split; [discriminate |].
    intros i. unfold array_get.
    destruct (decide (N.of_nat i = 0%N)) as [-> | Hne].
    + rewrite lookup_singleton_eq. discriminate.
    + rewrite lookup_singleton_ne by done. discriminate.
  - eexists _, _, _. split; [vm_compute; reflexivity |].
    split; [vm_compute; reflexivity |].
    split; [vm_compute; reflexivity |].
    split; [vm_compute; reflexivity |].
    split; vm_compute; reflexivity.
Qed.

(** ** Overlapping loads *)

(** The call singled out in [before ++ ld :: after] belongs to the list. *)
Ltac in_the_middle :=
  try match goal with H : in_flight _ = _ |- _ => rewrite H end;
  apply elem_of_app; right; apply list_elem_of_here.

Lemma NoDup_refetched_others (before after : list InitCall) ld x :
  NoDup (refetched <$> (before ++ ld :: after)%list) →
  x ∈ (before ++ after)%list →
  refetched x ≠ refetched ld.
Proof.
  rewrite fmap_app, fmap_cons.
  intros (_ & Hdisj & [Hnotin _]%NoDup_cons)%NoDup_app Hx Heq.
  apply elem_of_app in Hx as [Hx | Hx].
  - apply (Hdisj (refetched x)).
    + apply list_elem_of_fmap. eauto.
    + rewrite Heq. apply list_elem_of_here.
  - apply Hnotin. rewrite <- Heq. apply list_elem_of_fmap. eauto.
Qed.

Lemma NoDup_refetched_remove (before after : list InitCall) ld :
  NoDup (refetched <$> (before ++ ld :: after)%list) →
  NoDup (refetched <$> (before ++ after)%list).
Proof.
  rewrite !fmap_app, fmap_cons.
  intros (Hb & Hdisj & [_ Ha]%NoDup_cons)%NoDup_app.
  apply NoDup_app. repeat split; [done | | done].
  intros y Hy Hin. apply (Hdisj y Hy). by apply list_elem_of_further.
Qed.

Lemma config_inv_initial cldrjsLocales :
  config_inv (initial_config cldrjsLocales).
Proof.
  repeat split.
  - unfold initial_config; simpl. rewrite lookup_singleton_eq. eauto.
  - constructor.
  - constructor.
Qed.

(** A settled fetch writes one slot of the object of its own call. *)
Lemma config_inv_settle c before ld ld' after
    (f : FetchedLocaleMessages → FetchedLocaleMessages) :
  config_inv c →
  in_flight c = (before ++ ld :: after)%list →
  refetched ld' = refetched ld →
  f {| target := default None (target_promise ld);
       fallback := default None (fallback_promise ld) |}
  = {| target := default None (target_promise ld');
       fallback := default None (fallback_promise ld') |} →
  config_inv
    {| heap := alter f (refetched ld) (heap c);
       fetchedLocaleMessages_ref := fetchedLocaleMessages_ref c;
       cldrLocale_var := cldrLocale_var c;
       in_flight := (before ++ ld' :: after)%list |}.
Proof.
  intros (Href & Hcalls & Hnodup) Heq Hsame Hf.
  pose proof (proj1 (Forall_forall _ _) Hcalls) as Hall.
  rewrite Heq in Hall, Hnodup.
  destruct (Hall ld) as [Hne Hobj]; [in_the_middle |].
  unfold config_inv, load_consistent; simpl. repeat split.
  - by rewrite lookup_alter_ne.
  - apply Forall_forall. intros x Hx.
    assert (x = ld' ∨ x ∈ (before ++ after)%list) as [-> | Hother].
    { apply elem_of_app in Hx as [Hx | [-> | Hx]%elem_of_cons];
        [right | by left | right]; apply elem_of_app; auto. }
    + rewrite Hsame. split; [done |]. by rewrite lookup_alter_eq, Hobj, <- Hf.
    + destruct (Hall x) as [Hxne Hxobj].
      { apply elem_of_app in Hother as [Hx' | Hx']; apply elem_of_app;
          [by left | right; by apply list_elem_of_further]. }
      split; [done |]. rewrite lookup_alter_ne; [done |].
      intros Heq'. by apply (NoDup_refetched_others before after ld x).
  - rewrite fmap_app, fmap_cons, Hsame. by rewrite fmap_app, fmap_cons in Hnodup.
Qed.

Lemma config_inv_step cldrjsLocales c c' :
  config_inv c → step cldrjsLocales c c' → config_inv c'.
Proof.
  intros Hinv Hstep.
  destruct Hstep as [c l Hfresh
                    | c before ld after fetched v Heq Hpending Hsettle
                    | c before ld after fetched v Heq Hpending Hsettle
                    | c before ld after env vt vf Heq Ht Hf].
  - (* call *)
    destruct Hinv as (Href & Hcalls & Hnodup).
    pose proof (proj1 (Forall_forall _ _) Hcalls) as Hall.
    assert (l ≠ fetchedLocaleMessages_ref c) as Hl.
    { intros ->. rewrite Hfresh in Href. by destruct Href. }
    unfold config_inv, load_consistent, call_init; simpl. repeat split.
    + by rewrite lookup_insert_ne.
    + constructor; simpl.
      * split; [done |]. by rewrite lookup_insert_eq.
      * apply Forall_forall. intros x Hx. destruct (Hall x Hx) as [Hne Hobj].
        split; [done |]. rewrite lookup_insert_ne; [done |].
        intros ->. congruence.
    + apply NoDup_cons. split; [| done].
      intros (x & Hx & Hin)%list_elem_of_fmap.
      destruct (Hall x Hin) as [_ Hobj]. simpl in Hx. congruence.
  - (* the target fetch settles *)
    apply (config_inv_settle c before ld _ after (set_target v) Hinv Heq);
      [done |]. unfold set_target; simpl. done.
  - (* the fallback fetch settles *)
    apply (config_inv_settle c before ld _ after (set_fallback v) Hinv Heq);
      [done |]. unfold set_fallback; simpl. done.
  - (* the final assignments *)
    destruct Hinv as (Href & Hcalls & Hnodup).
    pose proof (proj1 (Forall_forall _ _) Hcalls) as Hall.
    rewrite Heq in Hall, Hnodup.
    destruct (Hall ld) as [Hne Hobj]; [in_the_middle |].
    unfold config_inv, load_consistent, commit; simpl. repeat split.
    + rewrite Hobj. eauto.
    + apply Forall_forall. intros x Hx.
      destruct (Hall x) as [Hxne Hxobj].
      { apply elem_of_app in Hx as [Hx | Hx]; apply elem_of_app;
          [by left | right; by apply list_elem_of_further]. }
      split; [| done].
      by apply (NoDup_refetched_others before after).
    + by apply (NoDup_refetched_remove before after ld).
Qed.

Lemma reachable_config_inv cldrjsLocales c :
  reachable cldrjsLocales c → config_inv c.
Proof.
  induction 1 as [| c c' _ IH Hstep].
  - apply config_inv_initial.
  - by apply (config_inv_step cldrjsLocales c c').
Qed.

(** C6: along any interleaving of loads, one job either leaves the pair
    that [fetchedLocaleMessages] refers to as it was, or it is the final
    assignment of a load both of whose fetches have settled, and the pair
    seen afterwards is made of exactly the two outcomes of that load. *)
Theorem state_replaced_whole cldrjsLocales c c' :
  reachable cldrjsLocales c →
  step cldrjsLocales c c' →
  observe c' = observe c ∨
  ∃ ld vt vf,
    ld ∈ in_flight c ∧
    target_promise ld = Some vt ∧
    fallback_promise ld = Some vf ∧
    observe c' = Some {| target := vt; fallback := vf |}.
Proof.
  intros Hreach Hstep.
  destruct (reachable_config_inv _ _ Hreach) as (Href & Hloads & Hnodup).
  pose proof (proj1 (Forall_forall _ _) Hloads) as Hall.
  destruct Hstep as [c l Hfresh
                    | c before ld after fetched v Heq Hpending Hsettle
                    | c before ld after fetched v Heq Hpending Hsettle
                    | c before ld after env vt vf Heq Ht Hf];
    unfold observe, call_init, settle_target, settle_fallback, commit; simpl.
  - left. rewrite lookup_insert_ne; [done |].
    intros ->. rewrite Hfresh in Href. by destruct Href.
  - left. destruct (Hall ld) as [Hne _]; [in_the_middle |].
    by rewrite lookup_alter_ne.
  - left. destruct (Hall ld) as [Hne _]; [in_the_middle |].
    by rewrite lookup_alter_ne.
  - right. exists ld, vt, vf.
    assert (ld ∈ in_flight c) as Hin by in_the_middle.
    destruct (Hall ld Hin) as [_ Hobj].
    rewrite Ht, Hf in Hobj. done.
Qed.

Lemma state_replaced_whole_witness :
  reachable sample_cldr sample_load_settled ∧
  step sample_cldr sample_load_settled sample_load_committed ∧
  (observe sample_load_committed = observe sample_load_settled ∨
   ∃ ld vt vf,
     ld ∈ in_flight sample_load_settled ∧
     target_promise ld = Some vt ∧
     fallback_promise ld = Some vf ∧
     observe sample_load_committed = Some {| target := vt; fallback := vf |}).
Proof.
  assert (reachable sample_cldr sample_load_settled) as Hreach.
  { apply (reachable_step _ sample_load_target_settled);
      [apply (reachable_step _ sample_load_started);
         [apply (reachable_step _ (initial_config sample_cldr));
            [apply reachable_initial |] |] |].
    - apply (step_call sample_cldr (initial_config sample_cldr) 1). reflexivity.
    - apply (step_target sample_cldr sample_load_started []
               {| refetched := 1; target_promise := None;
                  fallback_promise := None |} [] (Ok ∅));
        reflexivity.
    - apply (step_fallback sample_cldr sample_load_target_settled []
               {| refetched := 1; target_promise := Some (Some ∅);
                  fallback_promise := None |} []
               (Throw (NetworkError "offline"))); reflexivity. }
  assert (step sample_cldr sample_load_settled sample_load_committed) as Hstep.
  { apply (step_commit sample_cldr sample_load_settled []
             {| refetched := 1; target_promise := Some (Some ∅);
                fallback_promise := Some None |} []
             (sample_env (Throw (NetworkError "offline")) (Ok ∅))
             (Some ∅) None); reflexivity. }
  split; [exact Hreach |]. split; [exact Hstep |].
  exact (state_replaced_whole sample_cldr _ _ Hreach Hstep).
Defined.

(** * Further properties of the localisation core *)

(** ** When the loader keeps a bundle *)

Lemma inner_ok phs plist :
  (∀ pKey ph, (pKey, ph) ∈ phs → is_Some (content ph)) →
  ∃ plist', appendPlaceholderLists_inner phs plist = Ok plist'.
Proof.
  revert plist. induction phs as [|[pKey ph] phs IH]; intros plist Hall.
  - simpl. eauto.
  - destruct (Hall pKey ph) as [c Hc]; [apply list_elem_of_here |].
    rewrite (inner_cons _ _ _ _ _ Hc). apply IH.
    intros pKey' ph' Hin. apply (Hall pKey'). by apply list_elem_of_further.
Qed.

Lemma inner_throw_inv phs plist e :
  appendPlaceholderLists_inner phs plist = Throw e →
  ∃ pKey ph, (pKey, ph) ∈ phs ∧ content ph = None.
Proof.
  revert plist. induction phs as [|[pKey ph] phs IH]; intros plist H; [done |].
  destruct (content ph) as [c |] eqn:Hc.
  - rewrite (inner_cons _ _ _ _ _ Hc) in H.
    destruct (IH _ H) as (pKey' & ph' & Hin & Hnone).
    exists pKey', ph'. split; [by apply list_elem_of_further | done].
  - exists pKey, ph. split; [apply list_elem_of_here | done].
Qed.

Lemma appendPlaceholderLists_throw_inv messages e :
  appendPlaceholderLists messages = Throw e →
  has_malformed_placeholder messages.
Proof.
  intros H. pose proof (appendPlaceholderLists_spec messages) as Hspec.
  rewrite H in Hspec. destruct Hspec as (name & val & e' & Hval & Hthrow).
  unfold appendPlaceholderLists_message in Hthrow.
  destruct (placeholders val) as [phs |] eqn:Hphs; [| done].
  destruct (appendPlaceholderLists_inner phs ∅) as [r | e''] eqn:Hinner;
    [done |].
  destruct (inner_throw_inv _ _ _ Hinner) as (pKey & ph & Hin & Hnone).
  by exists name, val, phs, pKey, ph.
Qed.

Lemma well_formed_not_malformed messages :
  well_formed messages → ¬ has_malformed_placeholder messages.
Proof.
  intros Hwf (name & val & phs & pKey & ph & Hval & Hphs & Hin & Hnone).
  destruct (Hwf name val phs pKey ph Hval Hphs Hin) as [c Hc]. congruence.
Qed.

Lemma appendPlaceholderLists_well_formed messages :
  well_formed messages → ∃ messages', appendPlaceholderLists messages = Ok messages'.
Proof.
  intros Hwf. destruct (appendPlaceholderLists messages) as [r | e] eqn:E; [eauto |].
  destruct (well_formed_not_malformed _ Hwf).
  by apply (appendPlaceholderLists_throw_inv _ e).
Qed.

(** ** What the post-processing keeps and what it derives *)

Lemma appendPlaceholderLists_message_fields val val' :
  appendPlaceholderLists_message val = Ok val' →
  message val' = message val ∧ placeholders val' = placeholders val ∧
  (placeholders val = None → val' = val).
Proof.
  unfold appendPlaceholderLists_message.
  destruct (placeholders val) as [phs |] eqn:Hphs.
  - destruct (appendPlaceholderLists_inner phs ∅) as [r | e]; simpl; [| done].
    intros [= <-]. simpl. done.
  - intros [= <-]. done.
Qed.

(** X2: a successful post-processing keeps the keys of the bundle, and for
    every message its template and its placeholders; a message without
    placeholders is left exactly as fetched. *)
Theorem appendPlaceholderLists_preserves (messages messages' : LocaleMessages) :
  appendPlaceholderLists messages = Ok messages' →
  ∀ name,
    match messages !! name with
    | Some val =>
        ∃ val', messages' !! name = Some val' ∧
                message val' = message val ∧
                placeholders val' = placeholders val ∧
                (placeholders val = None → val' = val)
    | None => messages' !! name = None
    end.
Proof.
  intros H name. pose proof (appendPlaceholderLists_spec messages) as Hspec.
  rewrite H in Hspec. specialize (Hspec name).
  destruct (messages !! name) as [val |]; [| done].
  destruct Hspec as (val' & Hmsg & Hlookup). exists val'. split; [done |].
  by apply appendPlaceholderLists_message_fields.
Qed.

Lemma appendPlaceholderLists_preserves_witness :
  ∃ messages',
    appendPlaceholderLists
      {[ "greet" := sample_message "Hi $name$" [("name", "$1")] ]}
    = Ok messages' ∧
    ∃ val', messages' !! "greet" = Some val' ∧ message val' = "Hi $name$".
Proof.
  destruct (appendPlaceholderLists
              {[ "greet" := sample_message "Hi $name$" [("name", "$1")] ]})
    as [messages' | e] eqn:E; [| vm_compute in E; discriminate E].
  exists messages'. split; [reflexivity |].
  pose proof (appendPlaceholderLists_preserves _ _ E "greet") as H.
  rewrite lookup_singleton_eq in H.
  destruct H as (val' & Hl & Hm & _). exists val'. split; [exact Hl | exact Hm].
Defined.

Lemma inner_sound phs plist plist' j name :
  appendPlaceholderLists_inner phs plist = Ok plist' →
  array_get plist' j = Some name →
  array_get plist j = Some name ∨
  ∃ ph c, (name, ph) ∈ phs ∧ content ph = Some c ∧
          decode_index c = Some (N.of_nat j).
Proof.
  revert plist. induction phs as [|[pKey ph] phs IH]; intros plist Hrun Hget.
  - simpl in Hrun. injection Hrun as <-. by left.
  - destruct (content ph) as [c |] eqn:Hc.
    + rewrite (inner_cons _ _ _ _ _ Hc) in Hrun.
      destruct (IH _ Hrun Hget) as [Hold | (ph' & c' & Hin & Hc' & Hd)].
      * rewrite array_get_store in Hold.
        destruct (decide (integer_key (num_pred (to_number (substring1 c)))
                          = Some (N.of_nat j))) as [Hidx | Hidx]; [| by left].
        injection Hold as <-. right. exists ph, c.
        split; [apply list_elem_of_here | done].
      * right. exists ph', c'. split; [by apply list_elem_of_further | done].
    + simpl in Hrun. unfold get_content in Hrun. by rewrite Hc in Hrun.
Qed.

(** X3: every entry of a derived [placeholderList] is the name of a
    placeholder the message declares, at the index its content decodes to:
    nothing else gets into the list, whatever the fetched message carried
    in [placeholderList]. *)
Theorem placeholderList_entries_declared
    (messages messages' : LocaleMessages) name val val' phs arr j pKey :
  appendPlaceholderLists messages = Ok messages' →
  messages !! name = Some val →
  placeholders val = Some phs →
  messages' !! name = Some val' →
  placeholderList val' = Some arr →
  array_get arr j = Some pKey →
  ∃ ph c, (pKey, ph) ∈ phs ∧ content ph = Some c ∧
          decode_index c = Some (N.of_nat j).
Proof.
  intros H Hval Hphs Hval' Harr Hget.
  pose proof (appendPlaceholderLists_spec messages) as Hspec.
  rewrite H in Hspec. specialize (Hspec name). rewrite Hval in Hspec.
  destruct Hspec as (val'' & Hmsg & Hlookup).
  rewrite Hval' in Hlookup. injection Hlookup as <-.
  unfold appendPlaceholderLists_message in Hmsg. rewrite Hphs in Hmsg.
  destruct (appendPlaceholderLists_inner phs ∅) as [r | e] eqn:Hinner;
    simpl in Hmsg; [| done].
  injection Hmsg as <-. simpl in Harr. injection Harr as <-.
  destruct (inner_sound _ _ _ _ _ Hinner Hget) as [Hnil | Hdecl]; [| done].
  unfold array_get in Hnil. by rewrite lookup_empty in Hnil.
Qed.

Lemma placeholderList_entries_declared_witness :
  ∃ ph c,
    (("name", ph) : string * Placeholder)
      ∈ [("name", {| content := Some (code_units "$1") |})] ∧
    content ph = Some c ∧ decode_index c = Some 0%N.
Proof.
  apply (placeholderList_entries_declared
           {[ "greet" :=
                {| message := "Hi $name$";
                   placeholders := Some [("name", {| content := Some (code_units "$1") |})];
                   placeholderList := Some {[ 0%N := "stale"; 1%N := "entries" ]} |} ]}
           {[ "greet" :=
                {| message := "Hi $name$";
                   placeholders := Some [("name", {| content := Some (code_units "$1") |})];
                   placeholderList := Some {[ 0%N := "name" ]} |} ]}
           "greet"
           {| message := "Hi $name$";
              placeholders := Some [("name", {| content := Some (code_units "$1") |})];
              placeholderList := Some {[ 0%N := "stale"; 1%N := "entries" ]} |}
           {| message := "Hi $name$";
              placeholders := Some [("name", {| content := Some (code_units "$1") |})];
              placeholderList := Some {[ 0%N := "name" ]} |}
           [("name", {| content := Some (code_units "$1") |})]
           {[ 0%N := "name" ]} 0 "name");
    [vm_compute; reflexivity | vm_compute; reflexivity | reflexivity
    | vm_compute; reflexivity | reflexivity | reflexivity].
Defined.

Lemma appendPlaceholderLists_message_again val val' :
  appendPlaceholderLists_message val = Ok val' →
  appendPlaceholderLists_message val' = Ok val'.
Proof.
  unfold appendPlaceholderLists_message.
  destruct (placeholders val) as [phs |] eqn:Hphs.
  - destruct (appendPlaceholderLists_inner phs ∅) as [r | e] eqn:Hinner;
      simpl; [| done].
    intros [= <-]. simpl. by rewrite Hinner.
  - intros [= <-]. by rewrite Hphs.
Qed.

(** X4: post-processing is idempotent: run on a bundle it has produced, it
    succeeds and returns that bundle unchanged. *)
Theorem appendPlaceholderLists_idempotent (messages messages' : LocaleMessages) :
  appendPlaceholderLists messages = Ok messages' →
  appendPlaceholderLists messages' = Ok messages'.
Proof.
  intros H.
  pose proof (appendPlaceholderLists_spec messages) as Hfirst.
  rewrite H in Hfirst.
  assert (∀ name val', messages' !! name = Some val' →
                       appendPlaceholderLists_message val' = Ok val') as Hfix.
  { intros name val' Hval'. specialize (Hfirst name).
    destruct (messages !! name) as [val |]; [| congruence].
    destruct Hfirst as (val'' & Hmsg & Hlookup).
    rewrite Hval' in Hlookup. injection Hlookup as <-.
    by apply (appendPlaceholderLists_message_again val). }
  pose proof (appendPlaceholderLists_spec messages') as Hsecond.
  destruct (appendPlaceholderLists messages') as [r | e].
  - f_equal. apply map_eq. intros name. specialize (Hsecond name).
    destruct (messages' !! name) as [val' |] eqn:Hval'; [| done].
    destruct Hsecond as (val'' & Hmsg & Hlookup).
    rewrite (Hfix _ _ Hval') in Hmsg. congruence.
  - destruct Hsecond as (name & val' & e' & Hval' & Hthrow).
    rewrite (Hfix _ _ Hval') in Hthrow. done.
Qed.

Lemma appendPlaceholderLists_idempotent_witness :
  ∃ messages',
    appendPlaceholderLists
      {[ "greet" := sample_message "Hi $name$" [("name", "$1")] ]}
    = Ok messages' ∧
    appendPlaceholderLists messages' = Ok messages'.
Proof.
  destruct (appendPlaceholderLists
              {[ "greet" := sample_message "Hi $name$" [("name", "$1")] ]})
    as [messages' | e] eqn:E; [| vm_compute in E; discriminate E].
  exists messages'. split; [reflexivity |].
  exact (appendPlaceholderLists_idempotent _ _ E).
Defined.

(** ** From the loaded bundle to the bindings *)

Lemma NoDup_fst_functional {A} (l : list (string * A)) k a b :
  NoDup (fst <$> l) → (k, a) ∈ l → (k, b) ∈ l → a = b.
Proof.
  induction l as [|[k' x] l IH]; intros Hnd Ha Hb.
  - by apply elem_of_nil in Ha.
  - rewrite fmap_cons in Hnd. apply NoDup_cons in Hnd as [Hnotin Hnd].
    apply elem_of_cons in Ha as [Ha | Ha]; apply elem_of_cons in Hb as [Hb | Hb].
    + congruence.
    + injection Ha as -> ->. destruct Hnotin.
      apply list_elem_of_fmap. by exists (k', b).
    + injection Hb as -> ->. destruct Hnotin.
      apply list_elem_of_fmap. by exists (k', a).
    + by apply IH.
Qed.

(** With a name at every argument position, all of them non-empty and
    different, each argument is bound under the name of its position. *)
Lemma params_named arr (args : list JsValue) :
  (∀ i, i < length args → ∃ name, array_get arr i = Some name ∧ name ≠ EmptyString) →
  (∀ i j name, array_get arr i = Some name → array_get arr j = Some name → i = j) →
  ∀ i sub name,
    args !! i = Some sub → array_get arr i = Some name →
    reduce (bind_param (Some arr)) ∅ args !! name = Some sub.
Proof.
  intros Hcover Hinj i sub name Hi Hname.
  destruct (Hcover i) as (name' & Hname' & Hne); [by eapply lookup_lt_Some |].
  assert (name' = name) as -> by congruence.
  pose proof (pKey_at_name (Some arr) arr i name eq_refl Hname) as Hkey.
  pose proof (reduce_from_bound (Some arr) args 0 ∅ i sub Hi) as H.
  simpl in H. rewrite Hkey in H. unfold reduce. apply H.
  - by apply truthy_name.
  - intros j sub' Hlt Hj _ Heq.
    destruct (Hcover j) as (name_j & Hname_j & _); [by eapply lookup_lt_Some |].
    rewrite (pKey_at_name (Some arr) arr j name_j eq_refl Hname_j) in Heq.
    simpl in Heq. rewrite Heq in Hname_j.
    pose proof (Hinj _ _ _ Hname Hname_j) as Hsame. lia.
Qed.

(** X5: load, then bind.  For a message whose placeholders have different
    names, decode to different positions and give every argument position
    a non-empty name, the [params] built from the derived list bind each
    placeholder name to the argument at the position its content
    decodes to. *)
Theorem loaded_placeholders_bind val val' phs substitutions :
  placeholders val = Some phs →
  appendPlaceholderLists_message val = Ok val' →
  NoDup (fst <$> phs) →
  (∀ k1 p1 c1 k2 p2 c2 i,
     (k1, p1) ∈ phs → (k2, p2) ∈ phs →
     content p1 = Some c1 → content p2 = Some c2 →
     decode_index c1 = Some i → decode_index c2 = Some i → k1 = k2) →
  (∀ i, i < length (toList substitutions) →
        ∃ pKey ph c, (pKey, ph) ∈ phs ∧ content ph = Some c ∧
                     decode_index c = Some (N.of_nat i) ∧ pKey ≠ EmptyString) →
  ∀ pKey ph c i sub,
    (pKey, ph) ∈ phs → content ph = Some c →
    decode_index c = Some (N.of_nat i) →
    toList substitutions !! i = Some sub →
    getMessage_params val' substitutions !! pKey = Some sub.
Proof.
  intros Hphs Hmsg Hnd Hinj Hcover.
  unfold appendPlaceholderLists_message in Hmsg. rewrite Hphs in Hmsg.
  destruct (appendPlaceholderLists_inner phs ∅) as [arr | e] eqn:Hinner;
    simpl in Hmsg; [| done].
  injection Hmsg as <-. unfold getMessage_params; simpl.
  assert (∀ pKey ph c i, (pKey, ph) ∈ phs → content ph = Some c →
                         decode_index c = Some (N.of_nat i) →
                         array_get arr i = Some pKey) as Hstored.
  { intros pKey ph c i Hin Hc Hd.
    destruct (list_elem_of_split _ _ Hin) as (before & after & Hsplit).
    rewrite Hsplit in Hinner.
    apply (inner_last_wins _ _ _ _ _ _ _ _ Hinner Hc Hd).
    intros pKey' ph' c' Hin' Hc' Hd'.
    assert ((pKey', ph') ∈ phs) as Hin''.
    { rewrite Hsplit. apply elem_of_app. right. by apply list_elem_of_further. }
    pose proof (Hinj _ _ _ _ _ _ _ Hin'' Hin Hc' Hc Hd' Hd) as ->.
    rewrite Hsplit, fmap_app, fmap_cons in Hnd.
    apply NoDup_app in Hnd as (_ & _ & [Hnotin _]%NoDup_cons).
    apply Hnotin. apply list_elem_of_fmap. by exists (pKey, ph'). }
  assert (∀ i j name, array_get arr i = Some name →
                      array_get arr j = Some name → i = j) as Harr_inj.
  { intros i j name Hi Hj.
    destruct (inner_sound _ _ _ _ _ Hinner Hi) as [Hnil | (p1 & c1 & Hin1 & Hc1 & Hd1)].
    { unfold array_get in Hnil. by rewrite lookup_empty in Hnil. }
    destruct (inner_sound _ _ _ _ _ Hinner Hj) as [Hnil | (p2 & c2 & Hin2 & Hc2 & Hd2)].
    { unfold array_get in Hnil. by rewrite lookup_empty in Hnil. }
    pose proof (NoDup_fst_functional _ _ _ _ Hnd Hin1 Hin2) as ->.
    rewrite Hc1 in Hc2. injection Hc2 as <-.
    rewrite Hd1 in Hd2. injection Hd2 as Heq. by apply Nat2N.inj. }
  intros pKey ph c i sub Hin Hc Hd Hi.
  apply (params_named arr (toList substitutions)) with (i := i); [| done | done |].
  - intros i' Hlt. destruct (Hcover i' Hlt) as (k & p & c' & Hk & Hc' & Hd' & Hne).
    exists k. split; [| done]. by apply (Hstored k p c').
  - by apply (Hstored pKey ph c).
Qed.

Lemma loaded_placeholders_bind_witness :
  ∃ val',
    appendPlaceholderLists_message
      (sample_message "$b$ and $a$" [("a", "$2"); ("b", "$1")]) = Ok val' ∧
    getMessage_params val' (VArr [VStr "first"; VStr "second"]) !! "a"
    = Some (VStr "second").
Proof.
  destruct (appendPlaceholderLists_message
              (sample_message "$b$ and $a$" [("a", "$2"); ("b", "$1")]))
    as [val' | e] eqn:E; [| vm_compute in E; discriminate E].
  exists val'. split; [reflexivity |].
  apply (loaded_placeholders_bind
           (sample_message "$b$ and $a$" [("a", "$2"); ("b", "$1")]) val'
           [("a", {| content := Some (code_units "$2") |}); ("b", {| content := Some (code_units "$1") |})]
           (VArr [VStr "first"; VStr "second"]) eq_refl E)
    with (ph := {| content := Some (code_units "$2") |})
         (c := code_units "$2") (i := 1).
  - apply NoDup_cons. split; [| apply NoDup_singleton].
    by intros Hab%list_elem_of_singleton.
  - intros k1 p1 c1 k2 p2 c2 i H1 H2 Hc1 Hc2 Hd1 Hd2.
    apply elem_of_cons in H1 as [H1 | H1%list_elem_of_singleton];
      apply elem_of_cons in H2 as [H2 | H2%list_elem_of_singleton];
      injection H1 as -> ->; injection H2 as -> ->;
      injection Hc1 as <-; injection Hc2 as <-;
      vm_compute in Hd1, Hd2; congruence.
  - intros [| [| i]] Hlt; [| | simpl in Hlt; lia].
    + exists "b", {| content := Some (code_units "$1") |}, (code_units "$1").
      split; [set_solver |]. split; [reflexivity |].
      split; [vm_compute; reflexivity | discriminate].
    + exists "a", {| content := Some (code_units "$2") |}, (code_units "$2").
      split; [set_solver |]. split; [reflexivity |].
      split; [vm_compute; reflexivity | discriminate].
  - set_solver.
  - reflexivity.
  - vm_compute. reflexivity.
  - reflexivity.
Defined.

(** X6: load, then resolve.  When the fetch for the active locale yields a
    bundle whose descriptors all carry a content string, [init] resolves,
    and in the state it leaves every key of that bundle is resolved from
    its post-processed message; a message without placeholders gives its
    raw template, whatever the substitutions and [processTemplate]. *)
Theorem load_then_resolve
    processTemplate cldrjsLocales env (messages : LocaleMessages)
    messageName val substitutions :
  fetch_json env (locale_url env (getCurrentLocale env)) = Ok messages →
  well_formed messages →
  messages !! messageName = Some val →
  ∃ st' val',
    init cldrjsLocales env = Ok st' ∧
    appendPlaceholderLists_message val = Ok val' ∧
    getMessage processTemplate st' messageName substitutions
    = try_catch (getMessage_try processTemplate val' substitutions)
                (λ _, Ok EmptyString) ∧
    (placeholders val = None →
     getMessage processTemplate st' messageName substitutions
     = Ok (message val)).
Proof.
  intros Hfetch Hwf Hval.
  destruct (init_total cldrjsLocales env) as (t & f & Ht & Hf & Hinit).
  destruct (appendPlaceholderLists_well_formed _ Hwf) as [messages' Happend].
  change (or_string (getSavedLocale env) (getNativeLocale env))
    with (getCurrentLocale env) in Ht.
  unfold fetchLocaleMessages, fetchLocaleMessages_settle in Ht.
  rewrite Hfetch in Ht. simpl in Ht. rewrite Happend in Ht. simpl in Ht.
  injection Ht as <-.
  pose proof (appendPlaceholderLists_spec messages) as Hspec.
  rewrite Happend in Hspec. specialize (Hspec messageName).
  rewrite Hval in Hspec. destruct Hspec as (val' & Hmsg & Hlookup).
  eexists _, val'. split; [exact Hinit |]. split; [exact Hmsg |].
  assert (getMessage processTemplate
            (init_commit cldrjsLocales env
               {| target := Some messages'; fallback := f |})
            messageName substitutions
          = try_catch (getMessage_try processTemplate val' substitutions)
                      (λ _, Ok EmptyString)) as Hget.
  { apply getMessage_found. unfold lookup_message; simpl. by rewrite Hlookup. }
  split; [exact Hget |].
  intros Hnone. rewrite Hget.
  destruct (appendPlaceholderLists_message_fields _ _ Hmsg) as (_ & _ & Hsame).
  rewrite (Hsame Hnone). unfold getMessage_try. by rewrite Hnone.
Qed.

Lemma load_then_resolve_witness :
  ∃ st',
    init sample_cldr
      (sample_env (Ok ∅)
         (Ok {[ "hello" := {| message := "Bonjour"; placeholders := None;
                              placeholderList := None |} ]}))
    = Ok st' ∧
    getMessage failing_template st' "hello" VUndefined = Ok "Bonjour".
Proof.
  destruct (load_then_resolve failing_template sample_cldr
              (sample_env (Ok ∅)
                 (Ok {[ "hello" := {| message := "Bonjour"; placeholders := None;
                                      placeholderList := None |} ]}))
              {[ "hello" := {| message := "Bonjour"; placeholders := None;
                               placeholderList := None |} ]}
              "hello"
              {| message := "Bonjour"; placeholders := None;
                 placeholderList := None |}
              VUndefined)
    as (st' & val' & Hinit & _ & _ & Hplain).
  - reflexivity.
  - intros name val phs pKey ph Hval Hphs.
    destruct (decide (name = "hello")) as [-> | Hne].
    + rewrite lookup_singleton_eq in Hval. injection Hval as <-. discriminate Hphs.
    + by rewrite lookup_singleton_ne in Hval.
  - reflexivity.
  - exists st'. split; [exact Hinit | by apply Hplain].
Defined.

(** ** Locale names: hyphen and underscore *)

Lemma replace_first_absent from to s :
  has_char from s = false → replace_first from to s = s.
Proof.
  induction s as [|c s IH]; simpl; [done |].
  intros [Hc Hs]%orb_false_iff. rewrite Hc. by rewrite (IH Hs).
Qed.

Lemma replace_first_split from to a b :
  has_char from a = false →
  replace_first from to (a ++ String from b) = a ++ String to b.
Proof.
  induction a as [|c a IH]; simpl.
  - intros _. by rewrite Ascii.eqb_refl.
  - intros [Hc Ha]%orb_false_iff. rewrite Hc.
    change (String c (replace_first from to (a ++ String from b))
            = String c (a ++ String to b)).
    by rewrite (IH Ha).
Qed.

(** X7: the bundle of a locale is fetched from the directory named by the
    locale with its first hyphen, and only that one, turned into an
    underscore; a locale without a hyphen names its directory as it is. *)
Theorem locale_url_first_hyphen env (a b : string) :
  has_char "-" a = false →
  locale_url env (a ++ String "-" b)
  = getURL env ("_locales/" ++ (a ++ String "_" b) ++ "/messages.json") ∧
  locale_url env a = getURL env ("_locales/" ++ a ++ "/messages.json").
Proof.
  intros Ha. unfold locale_url.
  by rewrite (replace_first_split _ _ _ _ Ha), (replace_first_absent _ _ _ Ha).
Qed.

Lemma locale_url_first_hyphen_witness :
  has_char "-" "zh" = false ∧
  locale_url (sample_env (Ok ∅) (Ok ∅)) "zh-Hant-TW"
  = "chrome-extension://wallet/_locales/zh_Hant-TW/messages.json".
Proof.
  split; [reflexivity |].
  destruct (locale_url_first_hyphen (sample_env (Ok ∅) (Ok ∅)) "zh" "Hant-TW")
    as [H _]; [reflexivity | exact H].
Defined.

Lemma has_char_middle c a b : has_char c (a ++ String c b) = true.
Proof.
  induction a as [|c' a IH]; simpl.
  - by rewrite Ascii.eqb_refl.
  - change (Ascii.eqb c' c || has_char c (a ++ String c b) = true).
    rewrite IH. apply orb_true_r.
Qed.

(** X8: [getDateFnsLocale] falls back to [enUS] for every active locale
    written with a hyphen, the regional English, Chinese and Portuguese
    ones included: the table is keyed with underscores and the lookup uses
    the locale as it is. *)
Theorem getDateFnsLocale_hyphenated env :
  has_char "-" (getCurrentLocale env) = true →
  getDateFnsLocale env = enUS.
Proof.
  intros Hhyphen. unfold getDateFnsLocale, dateFnsLocales.
  rewrite not_elem_of_list_to_map_1; [done |].
  intros Hin. simpl in Hin.
  repeat (apply elem_of_cons in Hin as [Heq | Hin];
          [rewrite Heq in Hhyphen; discriminate Hhyphen |]).
  by apply elem_of_nil in Hin.
Qed.

Lemma getDateFnsLocale_hyphenated_witness :
  getCurrentLocale (sample_env (Ok ∅) (Ok ∅)) = "fr-CA" ∧
  getDateFnsLocale (sample_env (Ok ∅) (Ok ∅)) = enUS.
Proof.
  split; [reflexivity |].
  apply (getDateFnsLocale_hyphenated (sample_env (Ok ∅) (Ok ∅))).
  reflexivity.
Defined.

(** ** Overlapping loads: the last assignment wins *)

(** X9: calls in flight are kept newest first.  When two overlapping calls
    have both settled and the newer one makes its final assignments before
    the older one, the pair read afterwards is the older call's: a load
    that started earlier replaces the outcome of one that started
    later. *)
Theorem stale_load_overwrites
    cldrjsLocales c before newer between older after env1 env2 tn fn to fo :
  reachable cldrjsLocales c →
  in_flight c = (before ++ newer :: between ++ older :: after)%list →
  target_promise newer = Some tn → fallback_promise newer = Some fn →
  target_promise older = Some to → fallback_promise older = Some fo →
  step cldrjsLocales c
    (commit cldrjsLocales c before newer (between ++ older :: after)%list env1) ∧
  step cldrjsLocales
    (commit cldrjsLocales c before newer (between ++ older :: after)%list env1)
    (commit cldrjsLocales
       (commit cldrjsLocales c before newer (between ++ older :: after)%list env1)
       (before ++ between)%list older after env2) ∧
  observe
    (commit cldrjsLocales c before newer (between ++ older :: after)%list env1)
  = Some {| target := tn; fallback := fn |} ∧
  observe
    (commit cldrjsLocales
       (commit cldrjsLocales c before newer (between ++ older :: after)%list env1)
       (before ++ between)%list older after env2)
  = Some {| target := to; fallback := fo |}.
Proof.
  intros Hreach Heq Htn Hfn Hto Hfo.
  destruct (reachable_config_inv _ _ Hreach) as (_ & Hcalls & _).
  pose proof (proj1 (Forall_forall _ _) Hcalls) as Hall.
  destruct (Hall newer) as [_ Hnew]; [in_the_middle |].
  destruct (Hall older) as [_ Hold].
  { rewrite Heq. apply elem_of_app. right. apply list_elem_of_further.
    apply elem_of_app. right. apply list_elem_of_here. }
  rewrite Htn, Hfn in Hnew. rewrite Hto, Hfo in Hold. simpl in Hnew, Hold.
  repeat split.
  - by apply (step_commit cldrjsLocales c before newer _ env1 tn fn).
  - apply (step_commit cldrjsLocales _ (before ++ between)%list older after env2
             to fo); [| done | done].
    simpl. by rewrite <- app_assoc.
  - exact Hnew.
  - exact Hold.
Qed.

Lemma stale_load_overwrites_witness :
  reachable sample_cldr sample_two_settled ∧
  observe
    (commit sample_cldr
       (commit sample_cldr sample_two_settled []
          {| refetched := 2; target_promise := Some (Some ∅);
             fallback_promise := Some (Some ∅) |}
          [ {| refetched := 1; target_promise := Some None;
               fallback_promise := Some (Some ∅) |} ]
          (sample_env (Ok ∅) (Ok ∅)))
       []
       {| refetched := 1; target_promise := Some None;
          fallback_promise := Some (Some ∅) |}
       []
       (sample_env (Ok ∅) (Ok ∅)))
  = Some {| target := None; fallback := Some ∅ |}.
Proof.
  assert (reachable sample_cldr sample_two_settled) as Hreach.
  { pose (ld1 := {| refetched := 1; target_promise := None;
                    fallback_promise := None |}).
    pose (ld2 := {| refetched := 2; target_promise := None;
                    fallback_promise := None |}).
    pose (c1 := call_init (initial_config sample_cldr) 1).
    pose (c3 := settle_target sample_two_called [ld2] ld1 [] None).
    pose (c5 := settle_target sample_first_settled [] ld2
                  [ {| refetched := 1; target_promise := Some None;
                       fallback_promise := Some (Some ∅) |} ] (Some ∅)).
    apply (reachable_step _ c5);
      [apply (reachable_step _ sample_first_settled);
         [apply (reachable_step _ c3);
            [apply (reachable_step _ sample_two_called);
               [apply (reachable_step _ c1);
                  [apply (reachable_step _ (initial_config sample_cldr));
                     [apply reachable_initial |] |] |] |] |] |].
    - apply (step_call sample_cldr (initial_config sample_cldr) 1). reflexivity.
    - apply (step_call sample_cldr c1 2). reflexivity.
    - apply (step_target sample_cldr sample_two_called [ld2] ld1 []
               (Throw (NetworkError "offline"))); reflexivity.
    - apply (step_fallback sample_cldr c3 [ld2]
               {| refetched := 1; target_promise := Some None;
                  fallback_promise := None |} [] (Ok ∅)); reflexivity.
    - apply (step_target sample_cldr sample_first_settled [] ld2
               [ {| refetched := 1; target_promise := Some None;
                    fallback_promise := Some (Some ∅) |} ] (Ok ∅)); reflexivity.
    - apply (step_fallback sample_cldr c5 []
               {| refetched := 2; target_promise := Some (Some ∅);
                  fallback_promise := None |}
               [ {| refetched := 1; target_promise := Some None;
                    fallback_promise := Some (Some ∅) |} ] (Ok ∅)); reflexivity. }
  split; [exact Hreach |].
  destruct (stale_load_overwrites sample_cldr sample_two_settled []
              {| refetched := 2; target_promise := Some (Some ∅);
                 fallback_promise := Some (Some ∅) |}
              []
              {| refetched := 1; target_promise := Some None;
                 fallback_promise := Some (Some ∅) |}
              [] (sample_env (Ok ∅) (Ok ∅)) (sample_env (Ok ∅) (Ok ∅))
              (Some ∅) (Some ∅) None (Some ∅) Hreach)
    as (_ & _ & _ & Hfinal); [reflexivity .. | exact Hfinal].
Defined.

(** * Properties of the DApps list *)

Module DAppsListFacts.
Import DAppsList.

(** ** Array helpers *)

Lemma indexOf_from_absent arr x i : x ∉ arr → indexOf_from arr x i = (-1)%Z.
Proof.
  revert i. induction arr as [|y arr IH]; intros i Hx; simpl; [done |].
  apply not_elem_of_cons in Hx as [Hne Hx].
  destruct (String.eqb_spec y x) as [-> | _]; [done | by apply IH].
Qed.

Lemma indexOf_from_found a b x i :
  x ∉ a → indexOf_from (a ++ x :: b)%list x i = (i + Z.of_nat (length a))%Z.
Proof.
  revert i. induction a as [|y a IH]; intros i Hx; simpl.
  - rewrite String.eqb_refl. lia.
  - apply not_elem_of_cons in Hx as [Hne Hx].
    destruct (String.eqb_spec y x) as [-> | _]; [done |].
    rewrite (IH _ Hx). lia.
Qed.

Lemma indexOf_absent arr x : x ∉ arr → indexOf arr x = (-1)%Z.
Proof. apply indexOf_from_absent. Qed.

Lemma indexOf_found a b x :
  x ∉ a → indexOf (a ++ x :: b)%list x = Z.of_nat (length a).
Proof. intros Hx. unfold indexOf. by rewrite indexOf_from_found. Qed.

Lemma splice_middle {A} (a : list A) x b :
  splice (a ++ x :: b)%list (Z.of_nat (length a)) 1 = (a ++ b)%list.
Proof.
  unfold splice. rewrite length_app. simpl length.
  destruct (Z.ltb_spec (Z.of_nat (length a)) 0) as [Hneg | _]; [lia |].
  rewrite Z.min_l by lia. rewrite Nat2Z.id.
  replace (Nat.min 1 (length a + S (length b) - length a)) with 1 by lia.
  rewrite take_app_length.
  replace (length a + 1) with (length (a ++ [x])%list)
    by (rewrite length_app; simpl; lia).
  rewrite (cons_middle x a b), (assoc_L (++)%list), drop_app_length. done.
Qed.

Lemma splice_minus_one {A} (arr : list A) x :
  splice (arr ++ [x])%list (-1) 1 = arr.
Proof.
  unfold splice. rewrite length_app. simpl length.
  destruct (Z.ltb_spec (-1) 0) as [_ | Hpos]; [| lia].
  rewrite Z.max_l by lia.
  replace (Z.to_nat (Z.of_nat (length arr + 1) + -1)) with (length arr) by lia.
  replace (Nat.min 1 (length arr + 1 - length arr)) with 1 by lia.
  rewrite take_app_length.
  replace (length arr + 1) with (length (arr ++ [x])%list)
    by (rewrite length_app; simpl; lia).
  rewrite drop_all. by rewrite (right_id_L [] (++)%list).
Qed.

(** ** The selected tags *)

Lemma handleTagClick_absent name prev :
  name ∉ prev → handleTagClick name prev = (prev ++ [name])%list.
Proof. intros H. unfold handleTagClick. by rewrite (indexOf_absent _ _ H). Qed.

Lemma handleTagClick_present name a b :
  name ∉ a → handleTagClick name (a ++ name :: b)%list = (a ++ b)%list.
Proof.
  intros H. unfold handleTagClick. rewrite (indexOf_found _ _ _ H).
  destruct (Z.eqb_spec (Z.of_nat (length a)) (-1)) as [Heq | _]; [lia |].
  apply splice_middle.
Qed.

(** X10: a click on a tag flips that tag and no other: in a selection
    without repetition the tag is selected afterwards exactly when it was
    not before, every other tag keeps its state, and the selection stays
    without repetition. *)
Theorem handleTagClick_flips (name : string) (prev : list string) :
  NoDup prev →
  NoDup (handleTagClick name prev) ∧
  (name ∈ handleTagClick name prev ↔ name ∉ prev) ∧
  (∀ other, other ≠ name →
            (other ∈ handleTagClick name prev ↔ other ∈ prev)).
Proof.
  intros Hnd. destruct (decide (name ∈ prev)) as [Hin | Hnotin].
  - destruct (list_elem_of_split_l _ _ Hin) as (a & b & -> & Ha).
    rewrite (handleTagClick_present _ _ _ Ha).
    apply NoDup_app in Hnd as (Hnda & Hdisj & [Hb Hndb]%NoDup_cons).
    split; [| split].
    + apply NoDup_app. repeat split; [done | | done].
      intros x Hx Hxb. apply (Hdisj x Hx). by apply list_elem_of_further.
    + split.
      * intros [Hx | Hx]%elem_of_app; done.
      * intros Hno. destruct (Hno Hin).
    + intros other Hne. rewrite !elem_of_app, elem_of_cons.
      split; [intros [Hx | Hx]; auto | intros [Hx | [Hx | Hx]]; [auto | done | auto]].
  - rewrite (handleTagClick_absent _ _ Hnotin). split; [| split].
    + apply NoDup_app. repeat split; [done | | apply NoDup_singleton].
      intros x Hx ->%list_elem_of_singleton. done.
    + split; [done |]. intros _. apply elem_of_app. right. apply list_elem_of_here.
    + intros other Hne. rewrite elem_of_app, list_elem_of_singleton.
      split; [intros [Hx | Hx]; done | auto].
Qed.

Lemma handleTagClick_flips_witness :
  NoDup ["DEX"; "NFT"] ∧
  ("NFT" ∉ handleTagClick "NFT" ["DEX"; "NFT"]) ∧
  ("DEX" ∈ handleTagClick "NFT" ["DEX"; "NFT"]).
Proof.
  assert (NoDup ["DEX"; "NFT"]) as Hnd.
  { apply NoDup_cons. split; [| apply NoDup_singleton].
    by intros H%list_elem_of_singleton. }
  split; [exact Hnd |].
  destruct (handleTagClick_flips "NFT" ["DEX"; "NFT"] Hnd) as (_ & Hname & Hother).
  split.
  - intros H. apply Hname in H. apply H.
    apply list_elem_of_further, list_elem_of_here.
  - apply Hother; [discriminate | apply list_elem_of_here].
Defined.

(** X11: selecting a tag and clicking it again gives back the selection
    as it was, in the same order. *)
Theorem handleTagClick_twice (name : string) (prev : list string) :
  name ∉ prev →
  handleTagClick name (handleTagClick name prev) = prev.
Proof.
  intros H. rewrite (handleTagClick_absent _ _ H).
  rewrite (handleTagClick_present name prev [] H).
  by rewrite (right_id_L [] (++)%list).
Qed.

Lemma handleTagClick_twice_witness :
  ("Game" ∉ ["DEX"; "NFT"]) ∧
  handleTagClick "Game" (handleTagClick "Game" ["DEX"; "NFT"]) = ["DEX"; "NFT"].
Proof.
  assert ("Game" ∉ ["DEX"; "NFT"]) as H.
  { intros [H | [H | H%elem_of_nil]%elem_of_cons]%elem_of_cons; done. }
  split; [exact H | exact (handleTagClick_twice "Game" ["DEX"; "NFT"] H)].
Defined.

(** ** The favourites *)

(** X12: taking a favourite away removes its first occurrence and nothing
    else; a slug starred twice is still in the list after one removal. *)
Theorem handleFavoriteChange_removes_first (a b : list string) (slug : string) :
  slug ∉ a →
  handleFavoriteChange (a ++ slug :: b)%list false slug = (a ++ b)%list.
Proof.
  intros H. unfold handleFavoriteChange. rewrite (indexOf_found _ _ _ H).
  apply splice_middle.
Qed.

Lemma handleFavoriteChange_removes_first_witness :
  ("quipu" ∉ ["kolibri"]) ∧
  handleFavoriteChange ["kolibri"; "quipu"; "plenty"; "quipu"] false "quipu"
  = ["kolibri"; "plenty"; "quipu"].
Proof.
  assert ("quipu" ∉ ["kolibri"]) as H by (by intros H%list_elem_of_singleton).
  split; [exact H |].
  exact (handleFavoriteChange_removes_first ["kolibri"] ["plenty"; "quipu"]
           "quipu" H).
Defined.

(** X13: starring a DApp that was not a favourite and taking the star
    away again leaves the list of favourites as it was. *)
Theorem handleFavoriteChange_round_trip (favoriteDApps : list string) slug :
  slug ∉ favoriteDApps →
  handleFavoriteChange (handleFavoriteChange favoriteDApps true slug) false slug
  = favoriteDApps.
Proof.
  intros H. unfold handleFavoriteChange at 2.
  unfold handleFavoriteChange. rewrite (indexOf_found _ [] _ H).
  rewrite splice_middle. by rewrite (right_id_L [] (++)%list).
Qed.

Lemma handleFavoriteChange_round_trip_witness :
  ("quipu" ∉ ["kolibri"]) ∧
  handleFavoriteChange (handleFavoriteChange ["kolibri"] true "quipu")
    false "quipu" = ["kolibri"].
Proof.
  assert ("quipu" ∉ ["kolibri"]) as H by (by intros H%list_elem_of_singleton).
  split; [exact H | exact (handleFavoriteChange_round_trip ["kolibri"] "quipu" H)].
Defined.

(** X14: taking away a slug that is not in the list does not leave the
    list alone: [indexOf] gives -1 and [splice(-1, 1)] removes the last
    favourite. *)
Theorem handleFavoriteChange_absent_drops_last
    (favoriteDApps : list string) (last slug : string) :
  slug ∉ (favoriteDApps ++ [last])%list →
  handleFavoriteChange (favoriteDApps ++ [last])%list false slug = favoriteDApps.
Proof.
  intros H. unfold handleFavoriteChange. rewrite (indexOf_absent _ _ H).
  apply splice_minus_one.
Qed.

Lemma handleFavoriteChange_absent_drops_last_witness :
  ("youves" ∉ ["kolibri"; "quipu"]) ∧
  handleFavoriteChange ["kolibri"; "quipu"] false "youves" = ["kolibri"].
Proof.
  assert ("youves" ∉ (["kolibri"] ++ ["quipu"])%list) as H.
  { intros [H | [H | H%elem_of_nil]%elem_of_cons]%elem_of_cons; done. }
  split; [exact H |].
  exact (handleFavoriteChange_absent_drops_last ["kolibri"] "quipu" "youves" H).
Defined.

Lemma includes_true arr x : includes arr x = true ↔ x ∈ arr.
Proof. unfold includes. apply bool_decide_eq_true. Qed.

Lemma forallb_includes (arr l : list string) :
  forallb (λ x, includes arr x) l = true ↔ ∀ x, x ∈ l → x ∈ arr.
Proof.
  rewrite forallb_forall. setoid_rewrite includes_true.
  setoid_rewrite <- list_elem_of_In. done.
Qed.

(** X15: the star of the whole list.  Every slug [toggleAllFavorite]
    stores is the slug of a listed DApp, so favourites that are not in the
    list are dropped either way; and with at least one DApp listed, one
    click turns "all are favourites" into its opposite. *)
Theorem toggleAllFavorite_flips {Rest : Type}
    (dApps : list (DApp Rest)) (favoriteDApps : list string) :
  dApps ≠ [] →
  allDAppsAreFavorite dApps (toggleAllFavorite dApps favoriteDApps)
  = negb (allDAppsAreFavorite dApps favoriteDApps) ∧
  (∀ slug, slug ∈ toggleAllFavorite dApps favoriteDApps →
           slug ∈ allDAppsSlugs dApps).
Proof.
  intros Hne. unfold toggleAllFavorite.
  destruct (allDAppsAreFavorite dApps favoriteDApps) eqn:Hall; simpl.
  - split; [| by intros slug ?%elem_of_nil].
    destruct dApps as [|d rest]; [done |].
    reflexivity.
  - split; [| done].
    unfold allDAppsAreFavorite. by apply forallb_includes.
Qed.

Lemma toggleAllFavorite_flips_witness :
  allDAppsAreFavorite
    [ {| name := "QuipuSwap"; slug := "quipu"; categories := ["DEX"];
         restProps := tt |} ]
    (toggleAllFavorite
       [ {| name := "QuipuSwap"; slug := "quipu"; categories := ["DEX"];
            restProps := tt |} ]
       ["kolibri"])
  = true.
Proof.
  destruct (toggleAllFavorite_flips
              [ {| name := "QuipuSwap"; slug := "quipu"; categories := ["DEX"];
                   restProps := tt |} ]
              ["kolibri"]) as [Hflip _]; [discriminate |].
  rewrite Hflip. reflexivity.
Defined.

(** ** The search *)

Section Search.

Context {Rest : Type}.
Variable toLowerCase : string → string.

Lemma string_includes_empty s : string_includes s EmptyString = true.
Proof. by destruct s. Qed.

(** X16: with nothing typed in the search field (a search string whose
    lower case is empty) and no tag selected, every DApp is listed, in the
    order of the source list. *)
Theorem matchingDApps_no_criteria (dApps : list (DApp Rest)) searchString :
  toLowerCase searchString = EmptyString →
  matchingDApps toLowerCase dApps searchString [] = dApps.
Proof.
  intros Hempty. unfold matchingDApps.
  induction dApps as [|d rest IH]; [done |].
  rewrite filter_cons, IH. rewrite decide_True; [done |].
  rewrite Hempty, string_includes_empty. done.
Qed.

(** X17: clicking a tag that is not selected keeps, of the DApps listed
    before the click, exactly those that carry the tag, in the same
    order. *)
Theorem matchingDApps_after_tag_click
    (dApps : list (DApp Rest)) searchString selectedTags (tag : string) :
  tag ∉ selectedTags →
  matchingDApps toLowerCase dApps searchString (handleTagClick tag selectedTags)
  = filter (λ d, tag ∈ categories d)
           (matchingDApps toLowerCase dApps searchString selectedTags).
Proof.
  intros Hnew. rewrite (handleTagClick_absent _ _ Hnew). unfold matchingDApps.
  rewrite list_filter_filter. apply list_filter_iff. intros d.
  rewrite forallb_app. simpl. rewrite andb_true_r.
  rewrite !andb_true_iff, includes_true. tauto.
Qed.

End Search.

Lemma matchingDApps_no_criteria_witness :
  matchingDApps (λ s, s)
    [ {| name := "QuipuSwap"; slug := "quipu"; categories := ["DEX"];
         restProps := tt |} ]
    EmptyString []
  = [ {| name := "QuipuSwap"; slug := "quipu"; categories := ["DEX"];
         restProps := tt |} ].
Proof.
  apply (matchingDApps_no_criteria (λ s, s)). reflexivity.
Defined.

Lemma matchingDApps_after_tag_click_witness :
  ("NFT" ∉ ["DEX"]) ∧
  matchingDApps (λ s, s)
    [ {| name := "QuipuSwap"; slug := "quipu"; categories := ["DEX"];
         restProps := tt |} ]
    EmptyString (handleTagClick "NFT" ["DEX"])
  = filter (λ d, "NFT" ∈ categories d)
      (matchingDApps (λ s, s)
         [ {| name := "QuipuSwap"; slug := "quipu"; categories := ["DEX"];
              restProps := tt |} ]
         EmptyString ["DEX"]).
Proof.
  assert ("NFT" ∉ ["DEX"]) as H by (by intros H%list_elem_of_singleton).
  split; [exact H |].
  exact (matchingDApps_after_tag_click (λ s, s) _ EmptyString ["DEX"] "NFT" H).
Defined.

(** ** The categories *)

Lemma length_filter_all {A} (P : A → Prop) `{!∀ x, Decision (P x)} (l : list A) :
  length (filter P l) = length l ↔ Forall P l.
Proof.
  induction l as [|x l IH]; simpl; [by split; [constructor |] |].
  rewrite filter_cons. destruct (decide (P x)) as [Hx | Hx]; simpl.
  - rewrite Forall_cons. split.
    + intros [= Hlen]. split; [done | by apply IH].
    + intros [_ Hl]. f_equal. by apply IH.
  - split.
    + intros Hlen. pose proof (length_filter P l). lia.
    + intros [Hx' _]%Forall_cons. done.
Qed.

Lemma filter_mapped_known raw :
  filter (λ name, name ≠ "Other")
    (map (λ category, if includes USED_TAGS category then category else "Other")
         raw)
  = filter known raw.
Proof.
  induction raw as [|c raw IH]; [done |].
  simpl map. rewrite !filter_cons, IH.
  destruct (includes USED_TAGS c) eqn:Hinc.
  - apply includes_true in Hinc.
    destruct (decide (c ≠ "Other")) as [Hne | Heq].
    + by rewrite decide_True.
    + rewrite decide_False; [done |]. intros [_ Hk]. done.
  - rewrite decide_False by (intros Hne; done).
    rewrite decide_False; [done |]. intros [Hk _].
    apply includes_true in Hk. congruence.
Qed.

(** The rewrite as one equation: the known raw categories, then one
    "Other" when some raw category is not known. *)
Lemma normalize_categories_eq (rawCategories : list string) :
  normalize_categories rawCategories
  = (filter known rawCategories ++
     if decide (Forall known rawCategories) then [] else ["Other"])%list.
Proof.
  unfold normalize_categories. cbv zeta.
  rewrite filter_mapped_known, length_map.
  destruct (decide (Forall known rawCategories)) as [Hall | Hsome].
  - rewrite decide_False.
    + by rewrite (right_id_L [] (++)%list).
    + intros Hne. apply Hne.
      exact (proj2 (length_filter_all known rawCategories) Hall).
  - rewrite decide_True; [done |].
    intros Hlen. apply Hsome.
    exact (proj1 (length_filter_all known rawCategories) Hlen).
Qed.

Lemma filter_known_all l : Forall known (filter known l).
Proof.
  apply Forall_forall. intros x Hx. by apply list_elem_of_filter in Hx as [Hk _].
Qed.

Lemma filter_id {A} (P : A → Prop) `{!∀ x, Decision (P x)} (l : list A) :
  Forall P l → filter P l = l.
Proof.
  induction 1 as [|x l Hx Hl IH]; [done |].
  by rewrite filter_cons, decide_True, IH.
Qed.

Lemma filter_none {A} (P : A → Prop) `{!∀ x, Decision (P x)} (l : list A) :
  Forall (λ x, ¬ P x) l → filter P l = [].
Proof.
  induction 1 as [|x l Hx Hl IH]; [done |].
  by rewrite filter_cons, decide_False, IH.
Qed.

Lemma other_not_known : ¬ known "Other".
Proof. by intros [_ Hk]. Qed.

(** X18: the rewrite keeps the raw categories that name a tag other than
    "Other", in their order and with their repetitions; "Other" is in the
    result exactly when some raw category is "Other" or names no tag, and
    then it is there once, as the last category. *)
Theorem normalize_categories_keeps_known (rawCategories : list string) :
  filter known (normalize_categories rawCategories) = filter known rawCategories ∧
  ("Other" ∈ normalize_categories rawCategories ↔ ¬ Forall known rawCategories) ∧
  (∀ before after,
     normalize_categories rawCategories = (before ++ "Other" :: after)%list →
     after = [] ∧ before = filter known rawCategories).
Proof.
  rewrite normalize_categories_eq.
  pose proof (filter_known_all rawCategories) as Hk.
  assert ("Other" ∉ filter known rawCategories) as Hnot.
  { intros [Ho _]%list_elem_of_filter. by apply other_not_known. }
  destruct (decide (Forall known rawCategories)) as [Hall | Hsome].
  - rewrite (right_id_L [] (++)%list). split; [by apply filter_id |]. split.
    + split; [done | by intros Hno].
    + intros before after Heq. destruct Hnot. rewrite Heq.
      apply elem_of_app. right. apply list_elem_of_here.
  - split; [| split].
    + rewrite filter_app, (filter_id known _ Hk).
      rewrite filter_cons, decide_False by apply other_not_known.
      by rewrite filter_nil, (right_id_L [] (++)%list).
    + split; [done |]. intros _. apply elem_of_app. right. apply list_elem_of_here.
    + intros before after Heq.
      destruct after as [|x after' _] using rev_ind.
      * apply app_inj_tail in Heq as [<- _]. done.
      * rewrite app_comm_cons, (assoc_L (++)%list) in Heq.
        apply app_inj_tail in Heq as [Heq _].
        destruct Hnot. rewrite Heq. apply elem_of_app. right. apply list_elem_of_here.
Qed.

(** X19: the rewrite of the categories is idempotent. *)
Theorem normalize_categories_idempotent (rawCategories : list string) :
  normalize_categories (normalize_categories rawCategories)
  = normalize_categories rawCategories.
Proof.
  rewrite (normalize_categories_eq rawCategories).
  rewrite normalize_categories_eq.
  pose proof (filter_known_all rawCategories) as Hk.
  destruct (decide (Forall known rawCategories)) as [Hall | Hsome].
  - rewrite (right_id_L [] (++)%list).
    rewrite (filter_id known _ Hk). rewrite decide_True; [| done].
    by rewrite (right_id_L [] (++)%list).
  - rewrite filter_app, (filter_id known _ Hk).
    rewrite filter_cons, decide_False by apply other_not_known.
    rewrite decide_False; [by rewrite filter_nil, (right_id_L [] (++)%list) |].
    intros [_ Hother%Forall_cons]%Forall_app.
    destruct Hother as [Ho _]. by apply other_not_known.
Qed.

(** X20: every DApp of the list carries only categories that are tags of
    the tag bar, and a DApp that came with categories keeps at least
    one. *)
Theorem dApps_categories_are_tags {Rest : Type}
    (data : list (DApp Rest)) (d : DApp Rest) :
  d ∈ dApps data →
  (∀ category, category ∈ categories d → category ∈ USED_TAGS) ∧
  ∃ raw, raw ∈ data ∧ name d = name raw ∧ slug d = slug raw ∧
         (categories d = [] ↔ categories raw = []).
Proof.
  unfold dApps. intros (raw & -> & Hraw)%list_elem_of_fmap. simpl. split.
  - intros category. rewrite normalize_categories_eq.
    intros [[[Hk _] _]%list_elem_of_filter | Hother]%elem_of_app; [done |].
    destruct (decide (Forall known (categories raw))); [by apply elem_of_nil in Hother |].
    apply list_elem_of_singleton in Hother as ->.
    unfold USED_TAGS. do 7 apply list_elem_of_further. apply list_elem_of_here.
  - exists raw. repeat split; [done | |].
    + rewrite normalize_categories_eq. intros Hnil.
      apply app_eq_nil in Hnil as [Hf Ho].
      destruct (decide (Forall known (categories raw))) as [Hall | _]; [| done].
      by rewrite (filter_id known _ Hall) in Hf.
    + intros ->. reflexivity.
Qed.

Lemma dApps_categories_are_tags_witness :
  ∃ raw,
    raw ∈ [ {| name := "QuipuSwap"; slug := "quipu";
               categories := ["DEX"; "Lending"; "DEX"]; restProps := tt |} ] ∧
    "QuipuSwap" = name raw ∧ "quipu" = slug raw ∧
    (normalize_categories ["DEX"; "Lending"; "DEX"] = [] ↔ categories raw = []).
Proof.
  destruct (dApps_categories_are_tags
              [ {| name := "QuipuSwap"; slug := "quipu";
                   categories := ["DEX"; "Lending"; "DEX"]; restProps := tt |} ]
              {| name := "QuipuSwap"; slug := "quipu";
                 categories := normalize_categories ["DEX"; "Lending"; "DEX"];
                 restProps := tt |}) as [_ Hraw].
  - apply list_elem_of_here.
  - exact Hraw.
Defined.

End DAppsListFacts.

(** * Properties of the tabs of the Explore page *)

Module ExploreFacts.
Import Explore.

Section Tabs.

Context {Component : Type}.

Lemma find_tab_Some (tabs : list (Tab Component)) tabSlug tab :
  find_tab tabs tabSlug = Some tab → tab ∈ tabs ∧ slug tab = tabSlug.
Proof.
  induction tabs as [|t tabs IH]; simpl; [done |].
  destruct (String.eqb_spec (slug t) tabSlug) as [Heq | Hne].
  - intros [= <-]. split; [apply list_elem_of_here | done].
  - intros H. destruct (IH H) as [Hin Hs].
    split; [by apply list_elem_of_further | done].
Qed.

Lemma find_tab_None (tabs : list (Tab Component)) tabSlug :
  find_tab tabs tabSlug = None ↔ ∀ tab, tab ∈ tabs → slug tab ≠ tabSlug.
Proof.
  induction tabs as [|t tabs IH]; simpl.
  - split; [by intros _ tab ?%elem_of_nil | done].
  - destruct (String.eqb_spec (slug t) tabSlug) as [Heq | Hne].
    + split; [done |]. intros H. destruct (H t); [apply list_elem_of_here | done].
    + rewrite IH. split.
      * intros H tab [-> | Hin]%elem_of_cons; [done | by apply H].
      * intros H tab Hin. apply H. by apply list_elem_of_further.
Qed.

(** [find] returns the first tab with the slug: the tabs before it have
    other slugs. *)
Lemma find_tab_first (tabs : list (Tab Component)) tabSlug tab :
  find_tab tabs tabSlug = Some tab →
  ∃ before after,
    tabs = (before ++ tab :: after)%list ∧ slug tab = tabSlug ∧
    ∀ earlier, earlier ∈ before → slug earlier ≠ tabSlug.
Proof.
  induction tabs as [|t tabs IH]; simpl; [done |].
  destruct (String.eqb_spec (slug t) tabSlug) as [Heq | Hne].
  - intros [= <-]. exists [], tabs. split; [done |]. split; [done |].
    by intros earlier ?%elem_of_nil.
  - intros H. destruct (IH H) as (before & after & -> & Hs & Hbefore).
    exists (t :: before), after. split; [done |]. split; [done |].
    intros earlier [-> | Hin]%elem_of_cons; [done | by apply Hbefore].
Qed.

(** X21: with at least one tab defined a tab is always selected, and it
    is one of the tabs: the first one whose slug is the [tab] parameter
    when there is one (every tab before it in the list has another slug),
    and the first tab of the list when the parameter is missing, empty, or
    the slug of no tab. *)
Theorem selected_tab_falls_back
    (first : Tab Component) (rest : list (Tab Component))
    (tabSlug : option string) :
  ∃ tab,
    selected_tab (first :: rest) tabSlug = Some tab ∧
    tab ∈ first :: rest ∧
    (∀ s other, tabSlug = Some s → s ≠ EmptyString →
                other ∈ first :: rest → slug other = s →
                ∃ before after,
                  first :: rest = (before ++ tab :: after)%list ∧
                  slug tab = s ∧
                  ∀ earlier, earlier ∈ before → slug earlier ≠ s) ∧
    ((tabSlug = None ∨ tabSlug = Some EmptyString ∨
      ∃ s, tabSlug = Some s ∧ ∀ other, other ∈ first :: rest → slug other ≠ s) →
     tab = first).
Proof.
  unfold selected_tab.
  destruct tabSlug as [s |]; [destruct (string_is_empty s) eqn:Hs |].
  - destruct s; [| done]. exists first. simpl.
    split; [done |]. split; [apply list_elem_of_here |]. split; [| done].
    intros s other [= <-] Hne. done.
  - destruct (find_tab (first :: rest) s) as [tab |] eqn:Hfind.
    + destruct (find_tab_Some _ _ _ Hfind) as [Hin Hslug].
      exists tab. simpl nullish. split; [done |]. split; [done |]. split.
      * intros s' other [= <-] _ _ _. by apply find_tab_first.
      * intros [Hnone | [Hempty | (s' & [= <-] & Hno)]]; [done | | ].
        -- injection Hempty as ->. done.
        -- destruct (Hno tab Hin Hslug).
    + exists first. simpl nullish.
      split; [done |]. split; [apply list_elem_of_here |]. split; [| done].
      intros s' other [= <-] _ Hin Hslug.
      destruct (proj1 (find_tab_None _ _) Hfind other Hin Hslug).
  - exists first. simpl. split; [done |]. split; [apply list_elem_of_here |].
    split; [done | done].
Qed.

End Tabs.

End ExploreFacts.
